(** * cohomology-bot: the simplicial-complex kernel of [bot.py]

    A shallow embedding of the three helper functions of [src/bot.py]

      - [simplicial_complex_from_edges]  (lines 35-56),
      - [betti_numbers_1d]               (lines 59-101),
      - [euler_characteristic]           (lines 104-108),

    together with the properties the specification states about them.

    Vertex labels are the strings produced by the [!simplicial] command
    parser; Python compares them by code point, which on UTF-8 encoded
    labels is the byte-wise lexicographic order [String.le].  Python
    integers are unbounded, so the Betti numbers live in [Z]. *)

From stdpp Require Import base decidable option relations orders.
From stdpp Require Import list list_numbers sorting strings gmap pretty.
From Stdlib Require Import ZArith Lia Ascii.

Local Open Scope Z_scope.

#[local] Set Warnings "-clear-no-such-hyp".

(** ** Data model *)

Abbreviation vertex := string (only parsing).

(** An edge is a Python 2-tuple of labels. *)
Abbreviation edge := (string * string)%type (only parsing).

(** ** Orders used by [sorted] *)

Module Order.

(** Python's [<] on labels. *)
Definition lt (a b : vertex) : Prop := String.le a b ∧ a ≠ b.

(** Python's [<=] on 2-tuples: lexicographic. *)
Definition edge_le (e1 e2 : edge) : Prop :=
  lt e1.1 e2.1 ∨ (e1.1 = e2.1 ∧ String.le e1.2 e2.2).

#[global] Instance lt_dec : RelDecision lt.
Proof. intros a b. unfold lt. apply _. Defined.

#[global] Instance edge_le_dec : RelDecision edge_le.
Proof. intros e1 e2. unfold edge_le. apply _. Defined.

End Order.

(** ** [sorted] *)

(** [sorted(xs)] on a list of labels and on a list of 2-tuples.  Python's
    sort is a stable merge sort, and so is [merge_sort]. *)
Definition sorted_vertices (xs : list vertex) : list vertex :=
  merge_sort String.le xs.

Definition sorted_edges (xs : list edge) : list edge :=
  merge_sort Order.edge_le xs.

(** [a, b = sorted((u, v))]: the two labels, smaller one first. *)
Definition sorted_pair (u v : vertex) : edge :=
  match sorted_vertices [u; v] with
  | [a; b] => (a, b)
  | _ => (u, v)
  end.

(** ** [simplicial_complex_from_edges] *)

(** One iteration of the [for (u, v) in edges] loop (lines 45-52); the
    loop state is the [vertices] set and the [edges_sorted] list. *)
Definition build_step (st : gset vertex * list edge) (p : edge)
  : gset vertex * list edge :=
  let '(vertices, edges_sorted) := st in
  let '(u, v) := p in
  if decide (u = v) then (vertices, edges_sorted)
  else
    let '(a, b) := sorted_pair u v in
    let vertices := {[a]} ∪ vertices in
    let vertices := {[b]} ∪ vertices in
    if decide ((a, b) ∈ edges_sorted) then (vertices, edges_sorted)
    else (vertices, edges_sorted ++ [(a, b)]).

Definition build_loop (edges : list edge) : gset vertex * list edge :=
  foldl build_step (∅, []) edges.

Definition simplicial_complex_from_edges (edges : list edge)
  : list vertex * list edge :=
  let '(vertices, edges_sorted) := build_loop edges in
  (sorted_vertices (elements vertices), sorted_edges edges_sorted).

(** ** [euler_characteristic] *)

Definition euler_characteristic (beta0 beta1 : Z) : Z := beta0 - beta1.

(** ** Outcomes of a call

    [adj[k]] raises [KeyError] when [k] is not a key of the dictionary.
    [OutOfFuel] is not a Python outcome: it marks a [while] loop cut off by
    the iteration budget of the model, and is shown below never to occur. *)

Inductive outcome (A : Type) : Type :=
  | Returns (a : A)
  | KeyError (k : vertex)
  | OutOfFuel.
Arguments Returns {A} a.
Arguments KeyError {A} k.
Arguments OutOfFuel {A}.

#[global] Instance outcome_ret : MRet outcome := λ A a, Returns a.
#[global] Instance outcome_bind : MBind outcome := λ A B f m,
  match m with
  | Returns a => f a
  | KeyError k => KeyError k
  | OutOfFuel => OutOfFuel
  end.

(** ** [betti_numbers_1d]: the adjacency dictionary (lines 73-76) *)

(** [adj = {v: [] for v in vertices}]; every key gets a list of its own. *)
Definition adj_init (vertices : list vertex) : gmap vertex (list vertex) :=
  foldl (λ adj v, <[v := []]> adj) ∅ vertices.

(** [adj[u].append(v)] *)
Definition adj_append (adj : gmap vertex (list vertex)) (u v : vertex)
  : outcome (gmap vertex (list vertex)) :=
  match adj !! u with
  | Some l => Returns (<[u := l ++ [v]]> adj)
  | None => KeyError u
  end.

Fixpoint adj_fill (adj : gmap vertex (list vertex)) (edges : list edge)
  : outcome (gmap vertex (list vertex)) :=
  match edges with
  | [] => Returns adj
  | (u, v) :: edges' =>
      adj ← adj_append adj u v;
      adj ← adj_append adj v u;
      adj_fill adj edges'
  end.

Definition build_adj (vertices : list vertex) (edges : list edge)
  : outcome (gmap vertex (list vertex)) :=
  adj_fill (adj_init vertices) edges.

(** ** [betti_numbers_1d]: the traversal (lines 79-94) *)

(** The [visited] set, with the sequence of [visited.add] calls made so far
    (oldest first) recorded next to it. *)
Record trav : Type := Trav {
  visited : gset vertex;
  added : list vertex
}.

Definition trav_empty : trav := Trav ∅ [].

(** [visited.add(node)] *)
Definition visit (node : vertex) (st : trav) : trav :=
  Trav ({[node]} ∪ visited st) (added st ++ [node]).

(** The [for nei in adj[node]] loop (lines 86-88).  The Python [stack] is a
    list used from its end; here the head of the list is that end. *)
Definition push_unvisited (seen : gset vertex) (neis stack : list vertex)
  : list vertex :=
  foldl (λ stack nei, if decide (nei ∈ seen) then stack else nei :: stack)
        stack neis.

(** The [while stack] loop (lines 82-88), at most [fuel] tests of [stack]. *)
Fixpoint dfs_loop (fuel : nat) (adj : gmap vertex (list vertex))
    (st : trav) (stack : list vertex) : outcome trav :=
  match fuel with
  | O => OutOfFuel
  | S fuel' =>
      match stack with
      | [] => Returns st
      | node :: stack' =>
          if decide (node ∈ visited st) then dfs_loop fuel' adj st stack'
          else
            let st' := visit node st in
            match adj !! node with
            | None => KeyError node
            | Some neis =>
                dfs_loop fuel' adj st' (push_unvisited (visited st') neis stack')
            end
      end
  end.

Definition max_degree (adj : gmap vertex (list vertex)) : nat :=
  max_list_with (λ kv : vertex * list vertex, length kv.2) (map_to_list adj).

(** Iteration budget of one [dfs] call: a key enters [visited] once and then
    pushes at most [max_degree adj] entries, and every iteration pops one. *)
Definition dfs_fuel (adj : gmap vertex (list vertex)) : nat :=
  S (S (size adj * S (max_degree adj))).

(** [dfs(start)] *)
Definition dfs (adj : gmap vertex (list vertex)) (st : trav) (start : vertex)
  : outcome trav :=
  dfs_loop (dfs_fuel adj) adj st [start].

(** The [for v in vertices] loop (lines 90-94). *)
Fixpoint count_components (adj : gmap vertex (list vertex))
    (vertices : list vertex) (st : trav) (components : Z)
  : outcome (trav * Z) :=
  match vertices with
  | [] => Returns (st, components)
  | v :: vertices' =>
      if decide (v ∈ visited st) then count_components adj vertices' st components
      else
        let components := components + 1 in
        st ← dfs adj st v;
        count_components adj vertices' st components
  end.

(** Lines 72-94: the adjacency dictionary, then the component count. *)
Definition traverse (vertices : list vertex) (edges : list edge)
  : outcome (trav * Z) :=
  adj ← build_adj vertices edges;
  count_components adj vertices trav_empty 0.

Definition betti_numbers_1d (vertices : list vertex) (edges : list edge)
  : outcome (Z * Z) :=
  '(_, components) ← traverse vertices edges;
  let V := Z.of_nat (length vertices) in
  let E := Z.of_nat (length edges) in
  let beta0 := components in
  let beta1 := E - V + beta0 in
  Returns (beta0, beta1).

(** Lines 167-169 of the [simplicial] command: the three invariants of the
    complex built from the parsed pairs. *)
Definition invariants (raw : list edge) : outcome (Z * Z * Z) :=
  let '(vertices, edges_sorted) := simplicial_complex_from_edges raw in
  '(beta0, beta1) ← betti_numbers_1d vertices edges_sorted;
  let chi := euler_characteristic beta0 beta1 in
  Returns (beta0, beta1, chi).

(** ** Graph-theoretic vocabulary of the specification *)

(** The canonicalized non-loop pairs of an input sequence. *)
Definition canon_pairs (raw : list edge) : list edge :=
  omap (λ p : edge, if decide (p.1 = p.2) then None
                    else Some (sorted_pair p.1 p.2)) raw.

(** Every endpoint of every edge is a vertex. *)
Definition valid_complex (vertices : list vertex) (edges : list edge) : Prop :=
  ∀ u v, (u, v) ∈ edges → u ∈ vertices ∧ v ∈ vertices.

#[global] Instance valid_complex_dec vs es : Decision (valid_complex vs es).
Proof.
  refine (cast_if (decide (Forall (λ e : edge, e.1 ∈ vs ∧ e.2 ∈ vs) es)));
    unfold valid_complex; rewrite Forall_forall in *.
  - intros u v Huv. by apply (f (u, v)).
  - intros Hall. apply n. intros [u v] Huv. by apply Hall.
Defined.

Definition adjacent (edges : list edge) (u v : vertex) : Prop :=
  (u, v) ∈ edges ∨ (v, u) ∈ edges.

(** Joined by a path of edges (of length zero or more). *)
Definition connected (edges : list edge) : relation vertex :=
  rtc (adjacent edges).

(** [reps] holds exactly one vertex of every connected component. *)
Definition component_reps (vertices : list vertex) (edges : list edge)
    (reps : list vertex) : Prop :=
  NoDup reps ∧
  (∀ r, r ∈ reps → r ∈ vertices) ∧
  (∀ r1 r2, r1 ∈ reps → r2 ∈ reps → connected edges r1 r2 → r1 = r2) ∧
  (∀ v, v ∈ vertices → ∃ r, r ∈ reps ∧ connected edges r v).

(** The graph [(vertices, edges)] has [n] connected components. *)
Definition component_count (vertices : list vertex) (edges : list edge)
    (n : nat) : Prop :=
  ∃ reps, component_reps vertices edges reps ∧ length reps = n.

(** ** Invariants of the loops of [betti_numbers_1d] *)

(** The directed arcs of an edge list: both directions of every edge, in
    the order in which the construction loop appends them. *)
Definition arcs (es : list edge) : list edge :=
  es ≫= λ e, [(e.1, e.2); (e.2, e.1)].

(** [adj] lists, under every key, exactly the heads of the arcs in [A]
    that leave that key. *)
Definition arc_ok (A : list edge) (adj : gmap vertex (list vertex)) : Prop :=
  ∀ k l, adj !! k = Some l → ∀ x, x ∈ l ↔ (k, x) ∈ A.

(** A dictionary that [build_adj] returned: its keys are the vertices, its
    lists are the neighbours, and the complex was valid. *)
Record adj_spec (vs : list vertex) (es : list edge)
    (adj : gmap vertex (list vertex)) : Prop := {
  adj_keys : ∀ k, k ∈ dom adj ↔ k ∈ vs;
  adj_neis : ∀ k l, adj !! k = Some l → ∀ x, x ∈ l ↔ adjacent es k x;
  adj_valid : valid_complex vs es
}.

(** The recorded [visited.add] calls are the members of [visited], each
    recorded once. *)
Definition trav_ok (st : trav) : Prop :=
  NoDup (added st) ∧ ∀ v, v ∈ added st ↔ v ∈ visited st.

(** Invariant of the [while stack] loop of a call [dfs(r)] that started
    with the visited set [W]. *)
Record dfs_inv (vs : list vertex) (es : list edge) (W : gset vertex)
    (r : vertex) (st : trav) (stack : list vertex) : Prop := {
  inv_trace : trav_ok st;
  inv_visited_keys : ∀ x, x ∈ visited st → x ∈ vs;
  inv_stack_keys : ∀ x, x ∈ stack → x ∈ vs;
  inv_frontier : ∀ u v,
    u ∈ visited st → adjacent es u v → v ∈ visited st ∨ v ∈ stack;
  inv_reach : ∀ x, x ∈ visited st ∨ x ∈ stack → x ∈ W ∨ connected es r x;
  inv_grow : ∀ x, x ∈ W → x ∈ visited st;
  inv_root : r ∈ visited st ∨ r ∈ stack
}.

(** Invariant of the [for v in vertices] loop; [roots] are the vertices
    that [dfs] was called on so far. *)
Record outer_inv (vs : list vertex) (es : list edge) (roots : list vertex)
    (st : trav) : Prop := {
  o_trace : trav_ok st;
  o_keys : ∀ x, x ∈ visited st → x ∈ vs;
  o_closed : ∀ u v, u ∈ visited st → adjacent es u v → v ∈ visited st;
  o_reach : ∀ x, x ∈ visited st → ∃ r, r ∈ roots ∧ connected es r x;
  o_roots_visited : ∀ r, r ∈ roots → r ∈ visited st;
  o_roots_nodup : NoDup roots;
  o_roots_sep : ∀ r1 r2,
    r1 ∈ roots → r2 ∈ roots → connected es r1 r2 → r1 = r2
}.

(** ** The [simplicial] command (lines 138-185)

    A Python [str] is represented by its UTF-8 encoding, one [ascii] per
    byte.  Commas, dashes and the ASCII blanks are single bytes that occur
    in no longer encoding, so splitting and searching work on the bytes;
    [strip] works on the code points, which [chars] cuts out. *)

Definition is_ascii (b : Ascii.ascii) : bool := (Ascii.N_of_ascii b <? 128)%N.

(** The bytes [10xxxxxx] that continue a code point. *)
Definition is_continuation (b : Ascii.ascii) : bool :=
  (128 <=? Ascii.N_of_ascii b)%N && (Ascii.N_of_ascii b <? 192)%N.

(** Put byte [b] in front of the code points [cs]: it joins the first of
    them when that one starts with a continuation byte. *)
Definition chars_step (b : Ascii.ascii) (cs : list string) : list string :=
  match cs with
  | String b' c :: cs' =>
      if negb (is_ascii b) && is_continuation b'
      then String b (String b' c) :: cs'
      else String b "" :: cs
  | _ => String b "" :: cs
  end.

(** The code points of a string, each with its bytes. *)
Fixpoint chars (s : string) : list string :=
  match s with
  | "" => []
  | String b s' => chars_step b (chars s')
  end.

Definition flatten (cs : list string) : string := foldr String.append "" cs.

Definition bytes (l : list N) : string :=
  foldr (λ n s, String (Ascii.ascii_of_N n) s) "" l.

(** The code points for which [str.isspace] holds: U+0009 to U+000D,
    U+001C to U+0020, U+0085, U+00A0, U+1680, U+2000 to U+200A, U+2028,
    U+2029, U+202F, U+205F and U+3000. *)
Definition whitespace : list string :=
  bytes <$> [ [9]; [10]; [11]; [12]; [13]; [28]; [29]; [30]; [31]; [32];
              [194; 133]; [194; 160]; [225; 154; 128];
              [226; 128; 128]; [226; 128; 129]; [226; 128; 130];
              [226; 128; 131]; [226; 128; 132]; [226; 128; 133];
              [226; 128; 134]; [226; 128; 135]; [226; 128; 136];
              [226; 128; 137]; [226; 128; 138];
              [226; 128; 168]; [226; 128; 169]; [226; 128; 175];
              [226; 129; 159]; [227; 128; 128] ]%N.

Definition isspace (c : string) : bool := bool_decide (c ∈ whitespace).

Fixpoint drop_while {A} (f : A → bool) (l : list A) : list A :=
  match l with
  | [] => []
  | x :: l' => if f x then drop_while f l' else l
  end.

Definition lstrip_chars (cs : list string) : list string :=
  drop_while isspace cs.

Definition rstrip_chars (cs : list string) : list string :=
  reverse (drop_while isspace (reverse cs)).

(** [s.strip()] *)
Definition strip (s : string) : string :=
  flatten (rstrip_chars (lstrip_chars (chars s))).

(** [s.split(sep)] for a separator of one byte. *)
Fixpoint split_on (sep : Ascii.ascii) (s : string) : list string :=
  match s with
  | "" => [""]
  | String b s' =>
      if decide (b = sep) then "" :: split_on sep s'
      else match split_on sep s' with
           | p :: ps => String b p :: ps
           | [] => [String b ""]
           end
  end.

(** [b in s] for one byte [b]. *)
Fixpoint contains (b : Ascii.ascii) (s : string) : bool :=
  match s with
  | "" => false
  | String b' s' => bool_decide (b' = b) || contains b s'
  end.

(** [s.count(b)] *)
Fixpoint count_char (b : Ascii.ascii) (s : string) : nat :=
  match s with
  | "" => O
  | String b' s' => (if decide (b' = b) then 1 else 0) + count_char b s'
  end.

(** The unpacking [u, v = part.split("-")] raises [ValueError] when the
    list does not have two items. *)
Inductive parse_result : Type :=
  | Parsed (edges : list edge)
  | ValueError.

(** One iteration of the [for part in parts] loop (lines 153-161). *)
Definition parse_part (edges : list edge) (part : string) : parse_result :=
  let part := strip part in
  if negb (contains "-"%char part) then Parsed edges
  else
    match split_on "-"%char part with
    | [u; v] =>
        let u := strip u in
        let v := strip v in
        if bool_decide (u ≠ "") && bool_decide (v ≠ "")
        then Parsed (edges ++ [(u, v)])
        else Parsed edges
    | _ => ValueError
    end.

Fixpoint parse_parts (parts : list string) (edges : list edge)
  : parse_result :=
  match parts with
  | [] => Parsed edges
  | part :: parts' =>
      match parse_part edges part with
      | Parsed edges => parse_parts parts' edges
      | ValueError => ValueError
      end
  end.

(** Lines 150-161. *)
Definition parse_edges (edge_str : string) : parse_result :=
  parse_parts (split_on ","%char edge_str) [].

(** [", ".join([f"{u}-{v}" for (u, v) in edges_sorted])] *)
Definition edges_text (edges_sorted : list edge) : string :=
  String.concat ", " ((λ e : edge, e.1 +:+ "-" +:+ e.2) <$> edges_sorted).

(** [", ".join(vertices)] *)
Definition vertices_text (vertices : list vertex) : string :=
  String.concat ", " vertices.

(** The line feed that ends the lines of the message. *)
Definition nl : string := String (Ascii.ascii_of_N 10) "".

Definition no_edges_msg : string :=
  "I couldn't parse any edges. Use format like: `a-b, b-c, c-a`.".

(** The message of lines 175-183. *)
Definition summary (vertices : list vertex) (edges_sorted : list edge)
    (beta0 beta1 chi : Z) : string :=
  "**Simplicial complex summary**" +:+ nl +:+
  "• Vertices: " +:+ vertices_text vertices +:+ nl +:+
  "• Edges: " +:+ edges_text edges_sorted +:+ nl +:+
  "• β₀ (components): " +:+ pretty beta0 +:+ nl +:+
  "• β₁ (1-dimensional holes): " +:+ pretty beta1 +:+ nl +:+
  "• Euler characteristic χ = β₀ − β₁ = " +:+ pretty chi +:+ nl +:+ nl +:+
  "_Note: this is a simplified 1D example, like a graph viewed as a simplicial complex._".

(** What a call of the command does: it sends one message, or an
    exception leaves it. *)
Inductive reply : Type :=
  | Sends (msg : string)
  | RaisesValueError
  | RaisesKeyError (k : vertex)
  | RunsOutOfFuel.

(** The body of the command, with the argument of [ctx.send] as result. *)
Definition simplicial (edge_str : string) : reply :=
  match parse_edges edge_str with
  | ValueError => RaisesValueError
  | Parsed edges =>
      if bool_decide (edges = []) then Sends no_edges_msg
      else
        let '(vertices, edges_sorted) := simplicial_complex_from_edges edges in
        match betti_numbers_1d vertices edges_sorted with
        | Returns (beta0, beta1) =>
            let chi := euler_characteristic beta0 beta1 in
            Sends (summary vertices edges_sorted beta0 beta1 chi)
        | KeyError k => RaisesKeyError k
        | OutOfFuel => RunsOutOfFuel
        end
  end.

(** A label as the parser produces them. *)
Definition clean (x : vertex) : Prop :=
  x ≠ "" ∧ contains "-"%char x = false ∧ contains ","%char x = false ∧ strip x = x.

(** Some comma-separated part holds two dashes or more. *)
Definition overfull (edge_str : string) : Prop :=
  ∃ part, part ∈ split_on ","%char edge_str ∧ (2 ≤ count_char "-"%char part)%nat.

(** ** Vocabulary for the further properties *)

(** The endpoints of an edge list, in the order in which the construction
    of the adjacency dictionary looks them up. *)
Definition endpoints (es : list edge) : list vertex :=
  es ≫= λ e, [e.1; e.2].

(** The first endpoint, in that order, that is not a vertex. *)
Definition first_missing (vs : list vertex) (es : list edge) : option vertex :=
  head (filter (λ k, k ∉ vs) (endpoints es)).

(** The other ends of the arcs that leave [k], in the order of the edge
    list (a self-loop on [k] counts twice). *)
Definition neighbours (es : list edge) (k : vertex) : list vertex :=
  omap (λ a : edge, if decide (a.1 = k) then Some a.2 else None) (arcs es).

(** * Properties *)

(** ** The orders *)

Section order.
Import Order.

Lemma lt_irrefl a : ¬ lt a a.
Proof. intros [_ Hne]. by apply Hne. Qed.

(** [lt] is the strict comparison of the standard library. *)
Lemma lt_ltb a b : lt a b ↔ String.ltb a b = true.
Proof.
  unfold lt, String.le, String.ltb, String.leb.
  destruct (String.compare a b) eqn:Hc; simpl.
  - apply String.compare_eq_iff in Hc as ->. split; [by intros [_ ?] | done].
  - split; [done|]. intros _. split; [done|]. intros ->.
    assert (String.le b b) as Hr by done.
    unfold String.le, String.leb in Hr.
    rewrite String.compare_antisym in Hc.
    destruct (String.compare b b); done.
  - split; [by intros [? _] | done].
Qed.

Lemma lt_le a b : lt a b → String.le a b.
Proof. by intros [? _]. Qed.

Lemma lt_le_trans a b c : lt a b → String.le b c → lt a c.
Proof.
  intros [Hab Hne] Hbc. split; [by etrans|].
  intros ->. apply Hne. by apply (anti_symm String.le).
Qed.

Lemma lt_asym a b : lt a b → lt b a → False.
Proof.
  intros [Hab Hne] [Hba _]. apply Hne. by apply (anti_symm String.le).
Qed.

Lemma not_le_lt a b : ¬ String.le a b → lt b a.
Proof.
  intros Hn. split.
  - by destruct (total String.le a b).
  - intros ->. by apply Hn.
Qed.

#[global] Instance edge_le_trans : Transitive edge_le.
Proof.
  intros [a1 b1] [a2 b2] [a3 b3]. unfold edge_le. simpl.
  intros [H12 | [-> H12]] [H23 | [-> H23]].
  - left. eapply lt_le_trans; [done | by apply lt_le].
  - by left.
  - by left.
  - right. split; [done | by etrans].
Qed.

#[global] Instance edge_le_antisym : AntiSymm (=) edge_le.
Proof.
  intros [a1 b1] [a2 b2]. unfold edge_le. simpl.
  intros [H12 | [-> H12]] [H21 | [E H21]].
  - by destruct (lt_asym a1 a2).
  - subst. by destruct (lt_irrefl a1).
  - by destruct (lt_irrefl a2).
  - f_equal. by apply (anti_symm String.le).
Qed.

#[global] Instance edge_le_total : Total edge_le.
Proof.
  intros [a1 b1] [a2 b2]. unfold edge_le. simpl.
  destruct (decide (a1 = a2)) as [-> | Hne].
  - destruct (total String.le b1 b2); [left | right]; by right.
  - destruct (total String.le a1 a2); [left | right]; left; by split.
Qed.
End order.

(** ** [sorted] returns the sorted permutation of its argument *)

Section sorting_facts.
Context {A : Type} (R : relation A) `{!RelDecision R}.
Context `{!Transitive R, !AntiSymm (=) R, !Total R}.

Lemma merge_sort_ext (l1 l2 : list A) :
  l1 ≡ₚ l2 → merge_sort R l1 = merge_sort R l2.
Proof.
  intros Hp. apply (Sorted_unique R); [by apply Sorted_merge_sort..|].
  by rewrite !merge_sort_Permutation.
Qed.

Lemma merge_sort_fixed (l : list A) : Sorted R l → merge_sort R l = l.
Proof.
  intros Hs. apply (Sorted_unique R); [by apply Sorted_merge_sort | done |].
  apply merge_sort_Permutation.
Qed.

Lemma merge_sort_idemp (l : list A) :
  merge_sort R (merge_sort R l) = merge_sort R l.
Proof. apply merge_sort_fixed. by apply Sorted_merge_sort. Qed.
End sorting_facts.

Lemma sorted_pair_eq u v :
  sorted_pair u v = if decide (String.le u v) then (u, v) else (v, u).
Proof.
  unfold sorted_pair, sorted_vertices, merge_sort. simpl.
  destruct (decide (String.le u v)); simpl; reflexivity.
Qed.

Lemma sorted_pair_lt u v a b :
  u ≠ v → sorted_pair u v = (a, b) → Order.lt a b.
Proof.
  intros Hne. rewrite sorted_pair_eq.
  destruct (decide (String.le u v)) as [Hle | Hle]; intros [= <- <-].
  - by split.
  - by apply not_le_lt.
Qed.

Lemma sorted_pair_swap u v : sorted_pair u v = sorted_pair v u.
Proof.
  rewrite !sorted_pair_eq.
  destruct (decide (String.le u v)) as [H1 | H1];
    destruct (decide (String.le v u)) as [H2 | H2]; try done.
  - by rewrite (anti_symm String.le u v H1 H2).
  - by destruct (total String.le u v).
Qed.

Lemma sorted_pair_of_lt a b : Order.lt a b → sorted_pair a b = (a, b).
Proof.
  intros [Hle _]. rewrite sorted_pair_eq. by rewrite decide_True.
Qed.

(** ** The builder loop *)

Lemma canon_pairs_snoc raw u v :
  canon_pairs (raw ++ [(u, v)]) =
  canon_pairs raw ++ (if decide (u = v) then [] else [sorted_pair u v]).
Proof.
  unfold canon_pairs. rewrite omap_app. f_equal. simpl.
  by destruct (decide (u = v)).
Qed.

Lemma elem_of_canon_pairs raw p :
  p ∈ canon_pairs raw ↔
  ∃ u v, (u, v) ∈ raw ∧ u ≠ v ∧ sorted_pair u v = p.
Proof.
  unfold canon_pairs. rewrite list_elem_of_omap. split.
  - intros [[u v] [Hin Hf]]. simpl in Hf.
    destruct (decide (u = v)); [done|]. exists u, v. naive_solver.
  - intros (u & v & Hin & Hne & <-). exists (u, v). split; [done|].
    simpl. by rewrite decide_False.
Qed.

Lemma canon_pairs_lt raw a b : (a, b) ∈ canon_pairs raw → Order.lt a b.
Proof.
  rewrite elem_of_canon_pairs. intros (u & v & _ & Hne & Hs).
  by eapply sorted_pair_lt.
Qed.

(** What the loop leaves in [vertices] and [edges_sorted]. *)
Lemma build_loop_spec raw :
  NoDup (build_loop raw).2 ∧
  (∀ p, p ∈ (build_loop raw).2 ↔ p ∈ canon_pairs raw) ∧
  (∀ x, x ∈ (build_loop raw).1 ↔
        ∃ p, p ∈ (build_loop raw).2 ∧ (x = p.1 ∨ x = p.2)).
Proof.
  induction raw as [| [u v] raw IH] using rev_ind.
  - simpl. split; [constructor|]. split.
    + done.
    + intros x. split; [set_solver|]. intros (p & Hp & _). by inv Hp.
  - unfold build_loop in *. rewrite foldl_snoc, canon_pairs_snoc.
    destruct (foldl build_step (∅, []) raw) as [vs es]. simpl in IH |- *.
    destruct IH as (Hnd & Hes & Hvs).
    destruct (decide (u = v)) as [-> | Hne]; simpl.
    { rewrite app_nil_r. done. }
    destruct (sorted_pair u v) as [a b] eqn:Hab.
    destruct (decide ((a, b) ∈ es)) as [Hin | Hin]; simpl.
    + split; [done|]. split.
      * intros p. rewrite elem_of_app, list_elem_of_singleton, <-Hes.
        naive_solver.
      * intros x. rewrite !elem_of_union, !elem_of_singleton, Hvs.
        split; [|naive_solver].
        intros [-> | [-> | ?]]; [| |done]; exists (a, b); naive_solver.
    + split.
      { apply NoDup_app. split; [done|]. split; [|apply NoDup_singleton].
        intros p Hp ->%list_elem_of_singleton. done. }
      split.
      * intros p. rewrite !elem_of_app, Hes. done.
      * intros x. rewrite !elem_of_union, !elem_of_singleton, Hvs.
        setoid_rewrite elem_of_app. setoid_rewrite list_elem_of_singleton.
        split.
        -- intros [-> | [-> | (p & ? & ?)]];
             [exists (a, b) | exists (a, b) | exists p]; naive_solver.
        -- intros (p & [Hp | ->] & Hx); simpl in Hx; naive_solver.
Qed.

Lemma build_fst raw :
  (simplicial_complex_from_edges raw).1 =
  sorted_vertices (elements (build_loop raw).1).
Proof.
  unfold simplicial_complex_from_edges. by destruct (build_loop raw).
Qed.

Lemma build_snd raw :
  (simplicial_complex_from_edges raw).2 = sorted_edges (build_loop raw).2.
Proof.
  unfold simplicial_complex_from_edges. by destruct (build_loop raw).
Qed.

Lemma elem_of_build_edges raw p :
  p ∈ (simplicial_complex_from_edges raw).2 ↔ p ∈ canon_pairs raw.
Proof.
  rewrite build_snd. unfold sorted_edges. rewrite merge_sort_Permutation.
  apply build_loop_spec.
Qed.

Lemma elem_of_build_vertices raw x :
  x ∈ (simplicial_complex_from_edges raw).1 ↔
  ∃ p, p ∈ canon_pairs raw ∧ (x = p.1 ∨ x = p.2).
Proof.
  rewrite build_fst. unfold sorted_vertices.
  rewrite merge_sort_Permutation, elem_of_elements.
  destruct (build_loop_spec raw) as (_ & Hes & Hvs). rewrite Hvs.
  by setoid_rewrite Hes.
Qed.

Lemma NoDup_build_vertices raw : NoDup (simplicial_complex_from_edges raw).1.
Proof.
  rewrite build_fst. unfold sorted_vertices.
  rewrite merge_sort_Permutation. apply NoDup_elements.
Qed.

Lemma NoDup_build_edges raw : NoDup (simplicial_complex_from_edges raw).2.
Proof.
  rewrite build_snd. unfold sorted_edges.
  rewrite merge_sort_Permutation. apply build_loop_spec.
Qed.

(** The complex is determined by the set of canonical pairs. *)
Lemma build_ext raw1 raw2 :
  (∀ p, p ∈ canon_pairs raw1 ↔ p ∈ canon_pairs raw2) →
  simplicial_complex_from_edges raw1 = simplicial_complex_from_edges raw2.
Proof.
  intros Hsame.
  destruct (build_loop_spec raw1) as (Hnd1 & Hes1 & Hvs1).
  destruct (build_loop_spec raw2) as (Hnd2 & Hes2 & Hvs2).
  assert ((build_loop raw1).2 ≡ₚ (build_loop raw2).2) as Hperm.
  { apply NoDup_Permutation; [done..|]. intros p. by rewrite Hes1, Hes2. }
  assert ((build_loop raw1).1 = (build_loop raw2).1) as Hset.
  { apply set_eq. intros x. rewrite Hvs1, Hvs2.
    by setoid_rewrite Hperm. }
  rewrite (surjective_pairing (simplicial_complex_from_edges raw1)).
  rewrite (surjective_pairing (simplicial_complex_from_edges raw2)).
  rewrite !build_fst, !build_snd, Hset. f_equal.
  by apply merge_sort_ext; [apply _..|].
Qed.

(** ** Connected components of a graph *)

#[global] Instance adjacent_sym es : Symmetric (adjacent es).
Proof. intros u v [H | H]; [right | left]; done. Qed.

#[global] Instance connected_equiv es : Equivalence (connected es).
Proof. unfold connected. apply _. Qed.

Lemma connected_once es u v : adjacent es u v → connected es u v.
Proof. apply rtc_once. Qed.

Lemma connected_cons e es u v : connected es u v → connected (e :: es) u v.
Proof.
  apply rtc_subrel. intros x y [H | H]; [left | right]; by right.
Qed.

Lemma connected_nil u v : connected [] u v → u = v.
Proof.
  intros H. apply rtc_inv in H as [-> | (y & [Hy | Hy] & _)];
    [done | by inv Hy..].
Qed.

(** A path in the graph with one more edge [(a, b)] either avoids that
    edge or splits at one of its ends. *)
Lemma connected_cons_inv a b es u v :
  connected ((a, b) :: es) u v →
  connected es u v ∨
  (connected es u a ∧ connected es b v) ∨
  (connected es u b ∧ connected es a v).
Proof.
  intros H. induction H as [x | x y z Hxy _ IH].
  - by left.
  - assert (adjacent es x y ∨ (x = a ∧ y = b) ∨ (x = b ∧ y = a)) as Hstep.
    { destruct Hxy as [Hxy | Hxy]; apply elem_of_cons in Hxy as [[= -> ->] | ?];
        [ right; by left | left; by left | right; by right | left; by right ]. }
    destruct Hstep as [Hadj | [[-> ->] | [-> ->]]].
    + apply connected_once in Hadj.
      destruct IH as [IH | [[IH1 IH2] | [IH1 IH2]]].
      * left. by etrans.
      * right; left. split; [by etrans | done].
      * right; right. split; [by etrans | done].
    + destruct IH as [IH | [[IH1 IH2] | [IH1 IH2]]].
      * right; left. done.
      * right; left. done.
      * left. done.
    + destruct IH as [IH | [[IH1 IH2] | [IH1 IH2]]].
      * right; right. done.
      * left. done.
      * right; right. done.
Qed.

(** Counting through an injective relation. *)
Lemma length_le_of_injection {A B} (P : A → B → Prop) (l1 : list A) :
  ∀ (l2 : list B),
  NoDup l1 →
  (∀ a, a ∈ l1 → ∃ b, b ∈ l2 ∧ P a b) →
  (∀ a a' b, a ∈ l1 → a' ∈ l1 → P a b → P a' b → a = a') →
  (length l1 ≤ length l2)%nat.
Proof.
  induction l1 as [| a l1 IH]; intros l2 Hnd Hex Hinj; simpl; [lia|].
  apply NoDup_cons in Hnd as [Hnotin Hnd].
  destruct (Hex a) as (b & Hb & Hab); [by left|].
  apply list_elem_of_split in Hb as (k1 & k2 & ->).
  rewrite length_app. simpl.
  assert (length l1 ≤ length (k1 ++ k2))%nat as Hle.
  { apply IH; [done | |].
    - intros a' Ha'. destruct (Hex a') as (b' & Hb' & Hab'); [by right|].
      exists b'. split; [|done].
      rewrite elem_of_app, elem_of_cons in Hb'. rewrite elem_of_app.
      destruct Hb' as [? | [-> | ?]]; [by left | | by right].
      destruct Hnotin.
      rewrite (Hinj a a' b); [done | by left | by right | done | done].
    - intros a1 a2 b' H1 H2. apply Hinj; by right. }
  rewrite length_app in Hle. lia.
Qed.

Lemma component_reps_length_le vs es reps1 reps2 :
  component_reps vs es reps1 → component_reps vs es reps2 →
  (length reps1 ≤ length reps2)%nat.
Proof.
  intros (Hnd1 & Hin1 & Hsep1 & Hcov1) (Hnd2 & Hin2 & Hsep2 & Hcov2).
  apply (length_le_of_injection (λ r1 r2, connected es r2 r1)); [done | |].
  - intros r Hr. apply Hcov2, Hin1, Hr.
  - intros r r' b Hr Hr' H1 H2. apply Hsep1; [done..|].
    etrans; [symmetry; exact H1 | exact H2].
Qed.

(** The number of connected components is well defined. *)
Lemma component_count_unique vs es n m :
  component_count vs es n → component_count vs es m → n = m.
Proof.
  intros (r1 & H1 & <-) (r2 & H2 & <-).
  apply Nat.le_antisymm; by eapply component_reps_length_le.
Qed.

(** Every edge merges at most two components: a graph on [|V|] distinct
    vertices with [|E|] edges has at least [|V| - |E|] components. *)
Lemma component_count_bound vs es :
  NoDup vs → valid_complex vs es →
  ∃ n, component_count vs es n ∧ (length vs ≤ n + length es)%nat.
Proof.
  intros Hnd. induction es as [| [a b] es IH]; intros Hvalid.
  - exists (length vs). split; [|simpl; lia].
    exists vs. split; [|done]. split; [done|]. split; [done|]. split.
    + intros r1 r2 _ _. apply connected_nil.
    + intros v Hv. by exists v.
  - destruct IH as (n & (reps & (Hnr & Hin & Hsep & Hcov) & <-) & Hle).
    { intros u v Huv. apply Hvalid. by right. }
    destruct (Hvalid a b) as [Ha Hb]; [by left|].
    destruct (Hcov a Ha) as (ra & Hra & Hca).
    destruct (Hcov b Hb) as (rb & Hrb & Hcb).
    assert (connected ((a, b) :: es) a b) as Hab.
    { apply connected_once. left. by left. }
    destruct (decide (ra = rb)) as [-> | Hne].
    + exists (length reps). split; [|simpl; lia].
      exists reps. split; [|done]. split; [done|]. split; [done|]. split.
      * intros r1 r2 Hr1 Hr2 Hc.
        destruct (connected_cons_inv _ _ _ _ _ Hc) as [H | [[H1 H2] | [H1 H2]]].
        -- by apply Hsep.
        -- trans rb; [|symmetry]; apply Hsep; try done.
           ++ etrans; [exact H1 | by symmetry].
           ++ etrans; [symmetry; exact H2 | by symmetry].
        -- trans rb; [|symmetry]; apply Hsep; try done.
           ++ etrans; [exact H1 | by symmetry].
           ++ etrans; [symmetry; exact H2 | by symmetry].
      * intros v Hv. destruct (Hcov v Hv) as (r & Hr & Hc).
        exists r. split; [done | by apply connected_cons].
    + apply list_elem_of_split in Hrb as (k1 & k2 & ->).
      assert (rb ∉ k1 ++ k2) as Hrb'.
      { apply NoDup_app in Hnr as (_ & Hd & Hk2%NoDup_cons).
        rewrite elem_of_app. intros [H | H]; [|naive_solver].
        apply (Hd rb H). by left. }
      assert (∀ x, x ∈ k1 ++ rb :: k2 ↔ x = rb ∨ x ∈ k1 ++ k2) as Hmem.
      { intros x. rewrite !elem_of_app, elem_of_cons. naive_solver. }
      exists (length (k1 ++ k2)). split.
      2:{ rewrite length_app in Hle |- *. simpl in Hle |- *. lia. }
      exists (k1 ++ k2). split; [|done]. split.
      { apply NoDup_app in Hnr as (? & Hd & Hk2%NoDup_cons).
        apply NoDup_app. split; [done|]. split; [|naive_solver].
        intros x Hx Hx2. apply (Hd x Hx). by right. }
      split; [intros r Hr; apply Hin, Hmem; by right|]. split.
      * intros r1 r2 Hr1 Hr2 Hc.
        assert (r1 ∈ k1 ++ rb :: k2) as Hr1' by (apply Hmem; by right).
        assert (r2 ∈ k1 ++ rb :: k2) as Hr2' by (apply Hmem; by right).
        destruct (connected_cons_inv _ _ _ _ _ Hc) as [H | [[H1 H2] | [H1 H2]]].
        -- by apply Hsep.
        -- destruct Hrb'. replace rb with r2; [done|].
           symmetry. apply Hsep; [apply Hmem; by left | done |].
           by etrans.
        -- destruct Hrb'. replace rb with r1; [done|].
           symmetry. apply Hsep; [apply Hmem; by left | done |].
           etrans; [exact Hcb | by symmetry].
      * intros v Hv. destruct (Hcov v Hv) as (r & Hr & Hc).
        apply Hmem in Hr as [-> | Hr].
        -- exists ra. split.
           ++ apply Hmem in Hra as [? | ?]; done.
           ++ etrans; [apply connected_cons, Hca|].
              etrans; [exact Hab|]. apply connected_cons.
              etrans; [symmetry; exact Hcb | exact Hc].
        -- exists r. split; [done | by apply connected_cons].
Qed.

(** ** The adjacency dictionary *)

Lemma elem_of_arcs es u v : (u, v) ∈ arcs es ↔ adjacent es u v.
Proof.
  unfold arcs, adjacent. rewrite list_elem_of_bind. split.
  - intros ([a b] & Hab & Hin). simpl in Hab.
    rewrite elem_of_cons, list_elem_of_singleton in Hab.
    destruct Hab as [[= -> ->] | [= -> ->]]; [by left | by right].
  - intros [H | H]; [exists (u, v) | exists (v, u)]; simpl;
      (split; [|done]); [by left | right; by left].
Qed.

Lemma arcs_snoc es u v : arcs (es ++ [(u, v)]) = arcs es ++ [(u, v); (v, u)].
Proof. unfold arcs. by rewrite bind_app. Qed.

Lemma adj_init_lookup vs k :
  adj_init vs !! k = if decide (k ∈ vs) then Some [] else None.
Proof.
  unfold adj_init.
  induction vs as [| v vs IH] using rev_ind.
  - simpl. by rewrite lookup_empty.
  - rewrite foldl_snoc. destruct (decide (v = k)) as [-> | Hne].
    + rewrite lookup_insert_eq. rewrite decide_True; [done|].
      apply elem_of_app. right. by left.
    + rewrite lookup_insert_ne by done. rewrite IH.
      destruct (decide (k ∈ vs)) as [Hin | Hin].
      * rewrite decide_True; [done|]. apply elem_of_app. by left.
      * rewrite decide_False; [done|].
        rewrite elem_of_app, list_elem_of_singleton. naive_solver.
Qed.

Lemma adj_init_dom vs k : k ∈ dom (adj_init vs) ↔ k ∈ vs.
Proof.
  rewrite elem_of_dom, adj_init_lookup.
  destruct (decide (k ∈ vs)); split; done.
Qed.

Lemma adj_init_arc_ok vs : arc_ok [] (adj_init vs).
Proof.
  intros k l. rewrite adj_init_lookup.
  destruct (decide (k ∈ vs)); [|done]. intros [= <-] x. split; intros H; inv H.
Qed.

Lemma adj_append_Returns adj u v adj' :
  adj_append adj u v = Returns adj' →
  u ∈ dom adj ∧ dom adj' = dom adj ∧
  ∀ A, arc_ok A adj → arc_ok (A ++ [(u, v)]) adj'.
Proof.
  unfold adj_append. destruct (adj !! u) as [l |] eqn:Hu; [|done].
  intros [= <-]. split; [by eapply elem_of_dom_2|]. split.
  - by eapply dom_insert_lookup_L.
  - intros A HA k l' Hk x.
    rewrite elem_of_app, list_elem_of_singleton.
    destruct (decide (u = k)) as [-> | Hne].
    + rewrite lookup_insert_eq in Hk. injection Hk as <-.
      rewrite elem_of_app, list_elem_of_singleton, (HA k l Hu). naive_solver.
    + rewrite lookup_insert_ne in Hk by done. rewrite (HA k l' Hk).
      naive_solver.
Qed.

Lemma adj_append_in adj u v :
  u ∈ dom adj → ∃ adj', adj_append adj u v = Returns adj'.
Proof.
  intros [l Hl]%elem_of_dom. unfold adj_append. rewrite Hl. eauto.
Qed.

Lemma adj_append_KeyError adj u v k :
  adj_append adj u v = KeyError k → k = u ∧ u ∉ dom adj.
Proof.
  unfold adj_append. destruct (adj !! u) eqn:Hu; [done|].
  intros [= <-]. split; [done|]. by apply not_elem_of_dom.
Qed.

Lemma adj_append_not_fuel adj u v : adj_append adj u v ≠ OutOfFuel.
Proof. unfold adj_append. by destruct (adj !! u). Qed.

Lemma adj_fill_Returns es : ∀ adj done adj',
  adj_fill adj es = Returns adj' → arc_ok (arcs done) adj →
  dom adj' = dom adj ∧ arc_ok (arcs (done ++ es)) adj' ∧
  ∀ u v, (u, v) ∈ es → u ∈ dom adj ∧ v ∈ dom adj.
Proof.
  induction es as [| [u v] es IH]; intros adj done adj' Hrun Hok.
  - simpl in Hrun. injection Hrun as <-. rewrite app_nil_r.
    split; [done|]. split; [done|]. intros u v H. inv H.
  - simpl in Hrun.
    destruct (adj_append adj u v) as [adj1 | |] eqn:H1; try done.
    simpl in Hrun.
    destruct (adj_append adj1 v u) as [adj2 | |] eqn:H2; try done.
    simpl in Hrun.
    apply adj_append_Returns in H1 as (Hu & Hd1 & Hok1).
    apply adj_append_Returns in H2 as (Hv & Hd2 & Hok2).
    destruct (IH adj2 (done ++ [(u, v)]) adj' Hrun) as (Hd & Hok' & Hin).
    { rewrite arcs_snoc.
      replace (arcs done ++ [(u, v); (v, u)])
        with ((arcs done ++ [(u, v)]) ++ [(v, u)]) by by rewrite <-app_assoc.
      by apply Hok2, Hok1. }
    split; [congruence|]. split.
    + by rewrite <-app_assoc in Hok'.
    + intros a b [[= -> ->] | Hab]%elem_of_cons.
      * split; [done | congruence].
      * rewrite <-Hd1, <-Hd2. by apply Hin.
Qed.

Lemma adj_fill_total es : ∀ adj,
  (∀ u v, (u, v) ∈ es → u ∈ dom adj ∧ v ∈ dom adj) →
  ∃ adj', adj_fill adj es = Returns adj'.
Proof.
  induction es as [| [u v] es IH]; intros adj Hin; simpl; [eauto|].
  destruct (Hin u v) as [Hu Hv]; [by left|].
  destruct (adj_append_in adj u v Hu) as (adj1 & H1). rewrite H1. simpl.
  pose proof (adj_append_Returns _ _ _ _ H1) as (_ & Hd1 & _).
  destruct (adj_append_in adj1 v u) as (adj2 & H2); [by rewrite Hd1|].
  rewrite H2. simpl.
  pose proof (adj_append_Returns _ _ _ _ H2) as (_ & Hd2 & _).
  apply IH. intros a b Hab. rewrite Hd2, Hd1. apply Hin. by right.
Qed.

Lemma adj_fill_not_fuel es : ∀ adj, adj_fill adj es ≠ OutOfFuel.
Proof.
  induction es as [| [u v] es IH]; intros adj; simpl; [done|].
  destruct (adj_append adj u v) as [adj1 | |] eqn:H1; simpl; try done.
  - destruct (adj_append adj1 v u) as [adj2 | |] eqn:H2; simpl; try done.
    by apply adj_append_not_fuel in H2.
  - by apply adj_append_not_fuel in H1.
Qed.

Lemma build_adj_Returns vs es adj :
  build_adj vs es = Returns adj → adj_spec vs es adj.
Proof.
  unfold build_adj. intros Hrun.
  destruct (adj_fill_Returns es (adj_init vs) [] adj Hrun) as (Hd & Hok & Hin).
  { apply adj_init_arc_ok. }
  split.
  - intros k. rewrite Hd. apply adj_init_dom.
  - intros k l Hk x. rewrite (Hok k l Hk). apply elem_of_arcs.
  - intros u v Huv. rewrite <-!adj_init_dom. by apply Hin.
Qed.

Lemma build_adj_total vs es :
  valid_complex vs es → ∃ adj, build_adj vs es = Returns adj.
Proof.
  intros Hvalid. apply adj_fill_total. intros u v Huv.
  rewrite !adj_init_dom. by apply Hvalid.
Qed.

Lemma max_degree_bound (adj : gmap vertex (list vertex)) k l :
  adj !! k = Some l → (length l ≤ max_degree adj)%nat.
Proof.
  intros Hk. apply elem_of_map_to_list in Hk. unfold max_degree.
  revert Hk. generalize (map_to_list adj). intros xs Hin.
  change (length l) with (length (k, l).2).
  induction Hin as [kv rest | kv kv' rest _ IH]; simpl in *; lia.
Qed.

(** ** The [while stack] loop *)

Lemma elem_of_push_unvisited seen neis : ∀ stack x,
  x ∈ push_unvisited seen neis stack ↔ (x ∈ neis ∧ x ∉ seen) ∨ x ∈ stack.
Proof.
  unfold push_unvisited.
  induction neis as [| n neis IH]; intros stack x; simpl.
  - split; [by right|]. intros [[H _] | H]; [inv H | done].
  - rewrite IH. destruct (decide (n ∈ seen)) as [Hn | Hn].
    + rewrite elem_of_cons. split; [naive_solver|].
      intros [[[-> | H] Hx] | H]; [done | by left | by right].
    + rewrite !elem_of_cons. naive_solver.
Qed.

Lemma length_push_unvisited seen neis : ∀ stack,
  (length (push_unvisited seen neis stack) ≤ length neis + length stack)%nat.
Proof.
  unfold push_unvisited.
  induction neis as [| n neis IH]; intros stack; simpl; [lia|].
  etrans; [apply IH|]. destruct (decide (n ∈ seen)); simpl; lia.
Qed.

Lemma trav_ok_empty : trav_ok trav_empty.
Proof. split; [constructor|]. intros v. simpl. set_solver. Qed.

Lemma trav_ok_visit node st :
  trav_ok st → node ∉ visited st → trav_ok (visit node st).
Proof.
  intros [Hnd Hmem] Hnew. split; simpl.
  - apply NoDup_app. split; [done|]. split; [|apply NoDup_singleton].
    intros x Hx ->%list_elem_of_singleton. by apply Hnew, Hmem.
  - intros v. rewrite elem_of_app, list_elem_of_singleton, Hmem. set_solver.
Qed.

Lemma size_unvisited_visit (keys seen : gset vertex) node :
  node ∈ keys → node ∉ seen →
  size (keys ∖ seen) = S (size (keys ∖ ({[node]} ∪ seen))).
Proof.
  intros Hk Hs.
  replace (keys ∖ seen) with ({[node]} ∪ keys ∖ ({[node]} ∪ seen)).
  - rewrite size_union by set_solver. by rewrite size_singleton.
  - apply set_eq. intros x. rewrite !elem_of_union, !elem_of_difference,
      !elem_of_union, !elem_of_singleton.
    destruct (decide (x = node)) as [-> | ?]; naive_solver.
Qed.

(** The loop stops whatever the dictionary holds: a popped node that is
    already visited shortens the stack, and a new one leaves one key fewer
    to visit (cycles in the graph do not matter). *)
Lemma dfs_loop_terminates adj fuel : ∀ st stack,
  (length stack + size (dom adj ∖ visited st) * S (max_degree adj) < fuel)%nat →
  dfs_loop fuel adj st stack ≠ OutOfFuel.
Proof.
  induction fuel as [| fuel IH]; intros st stack Hfuel; [lia|].
  destruct stack as [| node rest]; simpl; [done|].
  destruct (decide (node ∈ visited st)) as [Hin | Hin].
  - apply IH. simpl in Hfuel. lia.
  - destruct (adj !! node) as [neis |] eqn:Hnode; [|done].
    apply IH. simpl.
    pose proof (length_push_unvisited ({[node]} ∪ visited st) neis rest).
    pose proof (max_degree_bound adj node neis Hnode).
    rewrite (size_unvisited_visit (dom adj) (visited st) node) in Hfuel;
      [| by eapply elem_of_dom_2 | done].
    simpl in Hfuel. lia.
Qed.

Lemma dfs_fuel_enough adj st :
  (S (size (dom adj ∖ visited st) * S (max_degree adj)) < dfs_fuel adj)%nat.
Proof.
  unfold dfs_fuel.
  assert (size (dom adj ∖ visited st) ≤ size adj)%nat as Hle.
  { rewrite <-(size_dom (D:=gset vertex) adj). apply subseteq_size. set_solver. }
  apply Nat.lt_succ_r, le_n_S.
  apply Nat.mul_le_mono_r with (p := S (max_degree adj)) in Hle. lia.
Qed.

Lemma dfs_terminates adj st start : dfs adj st start ≠ OutOfFuel.
Proof. apply dfs_loop_terminates. simpl. apply dfs_fuel_enough. Qed.

(** A larger budget does not change what the loop returns. *)
Lemma dfs_loop_fuel_mono adj fuel : ∀ fuel' st stack,
  (fuel ≤ fuel')%nat → dfs_loop fuel adj st stack ≠ OutOfFuel →
  dfs_loop fuel' adj st stack = dfs_loop fuel adj st stack.
Proof.
  induction fuel as [| fuel IH]; intros fuel' st stack Hle Hrun; [done|].
  destruct fuel' as [| fuel']; [lia|]. simpl in Hrun |- *.
  destruct stack as [| node rest]; [done|].
  destruct (decide (node ∈ visited st)).
  - apply IH; [lia | done].
  - destruct (adj !! node); [|done]. apply IH; [lia | done].
Qed.

Lemma dfs_fuel_irrelevant adj st start fuel :
  (dfs_fuel adj ≤ fuel)%nat → dfs_loop fuel adj st [start] = dfs adj st start.
Proof.
  intros Hle. apply dfs_loop_fuel_mono; [done | apply dfs_terminates].
Qed.

Section traversal.
Context (vs : list vertex) (es : list edge) (adj : gmap vertex (list vertex)).
Context (Hadj : adj_spec vs es adj).

Lemma dfs_inv_skip W r st node rest :
  dfs_inv vs es W r st (node :: rest) → node ∈ visited st →
  dfs_inv vs es W r st rest.
Proof.
  intros [Htr Hvk Hsk Hfr Hre Hgr Hroot] Hin. split; try done.
  - intros x Hx. apply Hsk. by right.
  - intros u v Hu Huv.
    destruct (Hfr u v Hu Huv) as [? | [-> | ?]%elem_of_cons]; auto.
  - intros x [Hx | Hx]; apply Hre; [by left | right; by right].
  - destruct Hroot as [? | [-> | ?]%elem_of_cons]; auto.
Qed.

Lemma dfs_inv_visit W r st node rest :
  dfs_inv vs es W r st (node :: rest) → node ∉ visited st →
  ∃ neis, adj !! node = Some neis ∧
    dfs_inv vs es W r (visit node st)
      (push_unvisited (visited (visit node st)) neis rest).
Proof.
  intros [Htr Hvk Hsk Hfr Hre Hgr Hroot] Hnew.
  assert (node ∈ vs) as Hnode by (apply Hsk; by left).
  pose proof (proj2 (adj_keys _ _ _ Hadj node) Hnode) as Hdom.
  apply elem_of_dom in Hdom as [neis Hneis].
  pose proof (adj_neis _ _ _ Hadj node neis Hneis) as Hnb.
  exists neis. split; [done|]. split; simpl.
  - by apply trav_ok_visit.
  - intros x [->%elem_of_singleton | Hx]%elem_of_union; auto.
  - intros x [[Hx _] | Hx]%elem_of_push_unvisited.
    + apply Hnb in Hx.
      destruct Hx as [Hx | Hx]; by apply (adj_valid _ _ _ Hadj) in Hx as [? ?].
    + apply Hsk. by right.
  - intros u v [->%elem_of_singleton | Hu]%elem_of_union Huv.
    + destruct (decide (v ∈ {[node]} ∪ visited st)) as [Hv | Hv]; [by left|].
      right. apply elem_of_push_unvisited. left. split; [|done]. by apply Hnb.
    + destruct (Hfr u v Hu Huv) as [Hv | [-> | Hv]%elem_of_cons].
      * left. set_solver.
      * left. set_solver.
      * right. apply elem_of_push_unvisited. by right.
  - assert (node ∈ W ∨ connected es r node) as Hrn by (apply Hre; right; by left).
    intros x [[->%elem_of_singleton | Hx]%elem_of_union | Hx]; [done | |].
    + apply Hre. by left.
    + apply elem_of_push_unvisited in Hx as [[Hx _] | Hx].
      * destruct Hrn as [Hw | Hc].
        { destruct Hnew. by apply Hgr. }
        right. etrans; [exact Hc|]. apply connected_once. by apply Hnb.
      * apply Hre. right. by right.
  - intros x Hx. apply elem_of_union. right. by apply Hgr.
  - destruct Hroot as [? | [-> | ?]%elem_of_cons].
    + left. set_solver.
    + left. set_solver.
    + right. apply elem_of_push_unvisited. by right.
Qed.

Lemma dfs_loop_run W r fuel : ∀ st stack,
  dfs_inv vs es W r st stack →
  (length stack + size (dom adj ∖ visited st) * S (max_degree adj) < fuel)%nat →
  ∃ st', dfs_loop fuel adj st stack = Returns st' ∧ dfs_inv vs es W r st' [].
Proof.
  induction fuel as [| fuel IH]; intros st stack Hinv Hfuel; [lia|].
  destruct stack as [| node rest]; simpl; [eauto|].
  destruct (decide (node ∈ visited st)) as [Hin | Hin].
  - apply IH; [by eapply dfs_inv_skip|]. simpl in Hfuel. lia.
  - destruct (dfs_inv_visit _ _ _ _ _ Hinv Hin) as (neis & Hneis & Hinv').
    rewrite Hneis. apply IH; [done|]. simpl.
    pose proof (length_push_unvisited ({[node]} ∪ visited st) neis rest).
    pose proof (max_degree_bound adj node neis Hneis).
    rewrite (size_unvisited_visit (dom adj) (visited st) node) in Hfuel;
      [| by eapply elem_of_dom_2 | done].
    simpl in Hfuel. lia.
Qed.

Lemma closed_connected (W : gset vertex) u v :
  (∀ a b, a ∈ W → adjacent es a b → b ∈ W) →
  u ∈ W → connected es u v → v ∈ W.
Proof. intros Hcl Hu Hc. induction Hc; eauto. Qed.

(** One call [dfs(r)] from the [for] loop adds the component of [r]. *)
Lemma dfs_run roots st r :
  outer_inv vs es roots st → r ∈ vs → r ∉ visited st →
  ∃ st', dfs adj st r = Returns st' ∧ outer_inv vs es (roots ++ [r]) st' ∧
         (∀ x, x ∈ visited st → x ∈ visited st').
Proof.
  intros [Htr Hk Hcl Hre Hrv Hnd Hsep] Hr Hnew.
  destruct (dfs_loop_run (visited st) r (dfs_fuel adj) st [r])
    as (st' & Hrun & [Htr' Hvk' _ Hfr' Hre' Hgr' Hroot']).
  { split; try done.
    - by intros x ->%list_elem_of_singleton.
    - intros u v Hu Huv. left. by eapply Hcl.
    - intros x [Hx | ->%list_elem_of_singleton]; [by left | by right].
    - right. by left. }
  { simpl. apply dfs_fuel_enough. }
  exists st'. split; [done|]. split; [|done].
  assert (r ∈ visited st') as Hr' by (by destruct Hroot' as [? | H]; [|inv H]).
  assert (∀ u v, u ∈ visited st' → adjacent es u v → v ∈ visited st') as Hcl'.
  { intros u v Hu Huv. by destruct (Hfr' u v Hu Huv) as [? | H]; [|inv H]. }
  split; try done.
  - intros x Hx. destruct (Hre' x) as [Hw | Hc]; [by left | |].
    + destruct (Hre x Hw) as (r0 & ? & ?). exists r0.
      split; [|done]. apply elem_of_app. by left.
    + exists r. split; [|done]. apply elem_of_app. right. by left.
  - intros r0 [H0 | ->%list_elem_of_singleton]%elem_of_app; auto.
  - apply NoDup_app. split; [done|]. split; [|apply NoDup_singleton].
    intros x Hx ->%list_elem_of_singleton. auto.
  - intros r1 r2 [H1 | ->%list_elem_of_singleton]%elem_of_app
                 [H2 | ->%list_elem_of_singleton]%elem_of_app Hc; auto.
    + destruct Hnew. apply (closed_connected (visited st) r1 r); auto.
    + destruct Hnew. apply (closed_connected (visited st) r2 r); auto.
      by symmetry.
Qed.

Lemma count_components_run todo : ∀ st roots,
  outer_inv vs es roots st → (∀ x, x ∈ todo → x ∈ vs) →
  ∃ st' roots',
    count_components adj todo st (Z.of_nat (length roots))
      = Returns (st', Z.of_nat (length roots')) ∧
    outer_inv vs es roots' st' ∧
    (∀ x, x ∈ visited st → x ∈ visited st') ∧
    (∀ x, x ∈ todo → x ∈ visited st').
Proof.
  induction todo as [| v todo IH]; intros st roots Hinv Hin; simpl.
  - exists st, roots. split; [done|]. split; [done|]. split; [done|].
    intros x H. inv H.
  - destruct (decide (v ∈ visited st)) as [Hv | Hv].
    + destruct (IH st roots Hinv) as (st' & roots' & Hrun & Hinv' & Hmono & Hall).
      { intros x Hx. apply Hin. by right. }
      exists st', roots'. split; [done|]. split; [done|]. split; [done|].
      intros x [-> | Hx]%elem_of_cons; auto.
    + destruct (dfs_run roots st v Hinv) as (st1 & Hdfs & Hinv1 & Hmono1);
        [apply Hin; by left | done |].
      rewrite Hdfs. simpl.
      destruct (IH st1 (roots ++ [v]) Hinv1)
        as (st' & roots' & Hrun & Hinv' & Hmono & Hall).
      { intros x Hx. apply Hin. by right. }
      replace (Z.of_nat (length roots) + 1)
        with (Z.of_nat (length (roots ++ [v])))
        by (rewrite length_app; simpl; lia).
      exists st', roots'. split; [done|]. split; [done|]. split; [auto|].
      intros x [-> | Hx]%elem_of_cons; [|auto].
      apply Hmono. apply (o_roots_visited _ _ _ _ Hinv1).
      apply elem_of_app. right. by left.
Qed.

End traversal.

(** ** The whole traversal *)

Lemma outer_inv_empty vs es : outer_inv vs es [] trav_empty.
Proof.
  split; simpl;
    first [ apply trav_ok_empty | apply NoDup_nil_2 | set_solver ].
Qed.

Lemma traverse_valid vs es :
  valid_complex vs es →
  ∃ st reps,
    traverse vs es = Returns (st, Z.of_nat (length reps)) ∧
    component_reps vs es reps ∧
    trav_ok st ∧ (∀ v, v ∈ visited st ↔ v ∈ vs).
Proof.
  intros Hvalid. unfold traverse.
  destruct (build_adj_total vs es Hvalid) as (adj & Hadj). rewrite Hadj. simpl.
  apply build_adj_Returns in Hadj.
  destruct (count_components_run vs es adj Hadj vs trav_empty [])
    as (st & reps & Hrun & Hinv & _ & Hall); [apply outer_inv_empty | done |].
  simpl in Hrun. exists st, reps. split; [done|].
  destruct Hinv as [Htr Hk Hcl Hre Hrv Hnd Hsep].
  split; [|split; [done|]].
  - split; [done|]. split; [auto|]. split; [done|]. auto.
  - intros v. split; auto.
Qed.

Lemma traverse_Returns_valid vs es r :
  traverse vs es = Returns r → valid_complex vs es.
Proof.
  unfold traverse. destruct (build_adj vs es) as [adj | |] eqn:Hadj; try done.
  intros _. by apply build_adj_Returns in Hadj as [_ _ ?].
Qed.

Lemma traverse_terminates vs es : traverse vs es ≠ OutOfFuel.
Proof.
  destruct (decide (valid_complex vs es)) as [Hvalid | Hinvalid].
  - destruct (traverse_valid vs es Hvalid) as (st & reps & -> & _). done.
  - unfold traverse. destruct (build_adj vs es) as [adj | |] eqn:Hadj; try done.
    + destruct Hinvalid. by apply build_adj_Returns in Hadj as [_ _ ?].
    + by apply adj_fill_not_fuel in Hadj.
Qed.

(** The precondition is needed: with a dangling endpoint the construction
    of the dictionary raises. *)
Lemma traverse_invalid vs es :
  ¬ valid_complex vs es → ∃ k, traverse vs es = KeyError k ∧ k ∉ vs.
Proof.
  intros Hinvalid. unfold traverse, build_adj.
  assert (∀ edges adj,
            (∀ k, k ∈ dom adj ↔ k ∈ vs) →
            ¬ valid_complex vs edges →
            ∃ k, adj_fill adj edges = KeyError k ∧ k ∉ vs) as Hfill.
  { induction edges as [| [u v] edges IH]; intros adj Hdom Hbad.
    - destruct Hbad. intros a b H. inv H.
    - simpl. destruct (adj_append adj u v) as [adj1 | k |] eqn:H1; simpl.
      + apply adj_append_Returns in H1 as (Hu & Hd1 & _).
        destruct (adj_append adj1 v u) as [adj2 | k |] eqn:H2; simpl.
        * apply adj_append_Returns in H2 as (Hv & Hd2 & _). apply IH.
          { intros k. by rewrite Hd2, Hd1. }
          intros Hgood. apply Hbad.
          intros a b [[= -> ->] | Hab]%elem_of_cons; [|by apply Hgood].
          rewrite <-!Hdom. by rewrite Hd1 in Hv.
        * apply adj_append_KeyError in H2 as [-> Hv].
          exists v. split; [done|]. by rewrite <-Hdom, <-Hd1.
        * by apply adj_append_not_fuel in H2.
      + apply adj_append_KeyError in H1 as [-> Hu].
        exists u. split; [done|]. by rewrite <-Hdom.
      + by apply adj_append_not_fuel in H1. }
  destruct (Hfill es (adj_init vs)) as (k & Hk & Hnot);
    [apply adj_init_dom | done |].
  exists k. by rewrite Hk.
Qed.

Lemma betti_valid vs es :
  valid_complex vs es →
  ∃ reps,
    betti_numbers_1d vs es =
      Returns (Z.of_nat (length reps),
               Z.of_nat (length es) - Z.of_nat (length vs)
               + Z.of_nat (length reps)) ∧
    component_reps vs es reps.
Proof.
  intros Hvalid.
  destruct (traverse_valid vs es Hvalid) as (st & reps & Hrun & Hreps & _).
  exists reps. split; [|done]. unfold betti_numbers_1d. by rewrite Hrun.
Qed.

Lemma build_valid raw :
  valid_complex (simplicial_complex_from_edges raw).1
                (simplicial_complex_from_edges raw).2.
Proof.
  intros u v Huv. apply elem_of_build_edges in Huv.
  rewrite !elem_of_build_vertices.
  split; exists (u, v); (split; [done|]); [by left | by right].
Qed.

Lemma betti_build raw :
  ∃ n : nat,
    betti_numbers_1d (simplicial_complex_from_edges raw).1
                     (simplicial_complex_from_edges raw).2 =
      Returns (Z.of_nat n,
               Z.of_nat (length (simplicial_complex_from_edges raw).2)
               - Z.of_nat (length (simplicial_complex_from_edges raw).1)
               + Z.of_nat n) ∧
    component_count (simplicial_complex_from_edges raw).1
                    (simplicial_complex_from_edges raw).2 n ∧
    (length (simplicial_complex_from_edges raw).1
     ≤ n + length (simplicial_complex_from_edges raw).2)%nat.
Proof.
  destruct (betti_valid _ _ (build_valid raw)) as (reps & Hrun & Hreps).
  destruct (component_count_bound _ _ (NoDup_build_vertices raw)
              (build_valid raw)) as (n & Hn & Hle).
  assert (length reps = n) as <-.
  { eapply component_count_unique; [|exact Hn]. by exists reps. }
  exists (length reps). split; [done|]. split; [|done]. by exists reps.
Qed.

(** * The claims of the specification *)

(** ** Examples of section 8 of the specification *)

Example two_triangles :
  invariants [("a", "b"); ("b", "c"); ("c", "a");
              ("d", "e"); ("e", "f"); ("f", "d")] = Returns (2, 2, 0).
Proof. vm_compute. reflexivity. Qed.

Example simple_path :
  invariants [("a", "b"); ("b", "c"); ("c", "d")] = Returns (1, 0, 1).
Proof. vm_compute. reflexivity. Qed.

Example single_cycle :
  invariants [("a", "b"); ("b", "c"); ("c", "a")] = Returns (1, 1, 0).
Proof. vm_compute. reflexivity. Qed.

Example duplicate_collapse :
  simplicial_complex_from_edges [("a", "b"); ("a", "b"); ("b", "a")]
  = (["a"; "b"], [("a", "b")]).
Proof. vm_compute. reflexivity. Qed.

(** A dangling endpoint makes the dictionary lookup fail. *)
Example dangling_endpoint :
  betti_numbers_1d ["a"] [("a", "b")] = KeyError "b".
Proof. vm_compute. reflexivity. Qed.

(** ** C1 *)

(** Claim C1.  On every complex that the builder returns,
    [betti_numbers_1d] returns [beta1 = |edges| - |vertices| + beta0],
    computed in [Z], and this [beta1] is not negative. *)
Theorem betti1_identity_nonneg (raw : list edge) (vertices : list vertex)
    (edges : list edge) :
  simplicial_complex_from_edges raw = (vertices, edges) →
  ∃ beta0 beta1 : Z,
    betti_numbers_1d vertices edges = Returns (beta0, beta1) ∧
    beta1 = Z.of_nat (length edges) - Z.of_nat (length vertices) + beta0 ∧
    0 ≤ beta1.
Proof.
  intros Hbuild. destruct (betti_build raw) as (n & Hrun & _ & Hle).
  rewrite Hbuild in Hrun, Hle. simpl in Hrun, Hle.
  eexists _, _. split; [exact Hrun|]. split; [done | lia].
Qed.

Lemma betti1_identity_nonneg_witness :
  ∃ beta0 beta1 : Z,
    betti_numbers_1d ["a"; "b"; "c"] [("a", "b"); ("a", "c"); ("b", "c")]
      = Returns (beta0, beta1) ∧
    beta1 = 3 - 3 + beta0 ∧ 0 ≤ beta1.
Proof.
  apply (betti1_identity_nonneg [("a", "b"); ("b", "c"); ("c", "a")]).
  vm_compute. reflexivity.
Defined.

(** ** C2 *)

(** Claim C2.  On every complex that the builder returns, the value
    [euler_characteristic beta0 beta1] computed from the two Betti numbers
    is [beta0 - beta1], and it equals [|vertices| - |edges|]. *)
Theorem euler_identity (raw : list edge) (vertices : list vertex)
    (edges : list edge) :
  simplicial_complex_from_edges raw = (vertices, edges) →
  ∃ beta0 beta1 : Z,
    betti_numbers_1d vertices edges = Returns (beta0, beta1) ∧
    invariants raw
      = Returns (beta0, beta1, euler_characteristic beta0 beta1) ∧
    euler_characteristic beta0 beta1 = beta0 - beta1 ∧
    euler_characteristic beta0 beta1
      = Z.of_nat (length vertices) - Z.of_nat (length edges).
Proof.
  intros Hbuild. destruct (betti_build raw) as (n & Hrun & _ & _).
  unfold invariants. rewrite Hbuild in Hrun |- *. simpl in Hrun.
  eexists _, _. split; [exact Hrun|]. rewrite Hrun. simpl.
  split; [done|]. unfold euler_characteristic. split; lia.
Qed.

Lemma euler_identity_witness :
  ∃ beta0 beta1 : Z,
    betti_numbers_1d ["a"; "b"; "c"; "d"] [("a", "b"); ("b", "c"); ("c", "d")]
      = Returns (beta0, beta1) ∧
    invariants [("a", "b"); ("b", "c"); ("c", "d")]
      = Returns (beta0, beta1, euler_characteristic beta0 beta1) ∧
    euler_characteristic beta0 beta1 = beta0 - beta1 ∧
    euler_characteristic beta0 beta1 = 4 - 3.
Proof.
  apply (euler_identity [("a", "b"); ("b", "c"); ("c", "d")]).
  vm_compute. reflexivity.
Defined.

(** ** C3 *)

(** Claim C3.  On every complex whose edge endpoints lie in its vertex
    list, [beta0] is the number of connected components of the graph
    [(vertices, edges)] (a number that is unique); a complex of one
    isolated vertex gives [beta0 = 1], [beta1 = 0] and [chi = 1]. *)
Theorem beta0_counts_components :
  (∀ (vertices : list vertex) (edges : list edge),
     valid_complex vertices edges →
     ∃ (n : nat) (beta1 : Z),
       betti_numbers_1d vertices edges = Returns (Z.of_nat n, beta1) ∧
       component_count vertices edges n ∧
       ∀ m, component_count vertices edges m → m = n) ∧
  (∀ v : vertex,
     betti_numbers_1d [v] [] = Returns (1, 0) ∧
     euler_characteristic 1 0 = 1).
Proof.
  split.
  - intros vs es Hvalid.
    destruct (betti_valid vs es Hvalid) as (reps & Hrun & Hreps).
    assert (component_count vs es (length reps)) as Hcount by by exists reps.
    eexists _, _. split; [exact Hrun|]. split; [done|].
    intros m Hm. by eapply component_count_unique.
  - intros v. split; [|done].
    destruct (betti_valid [v] []) as (reps & Hrun & Hreps).
    { intros a b H. inv H. }
    assert (length reps = 1%nat) as Hlen.
    { eapply component_count_unique; [by exists reps|].
      exists [v]. split; [|done]. split; [apply NoDup_singleton|].
      split; [done|]. split.
      - by intros r1 r2 ->%list_elem_of_singleton ->%list_elem_of_singleton.
      - intros x ->%list_elem_of_singleton. exists v. split; [by left | done]. }
    rewrite Hrun, Hlen. done.
Qed.

Lemma beta0_counts_components_witness :
  ∃ (n : nat) (beta1 : Z),
    betti_numbers_1d ["a"; "b"; "c"] [("a", "b")] = Returns (Z.of_nat n, beta1) ∧
    component_count ["a"; "b"; "c"] [("a", "b")] n ∧
    ∀ m, component_count ["a"; "b"; "c"] [("a", "b")] m → m = n.
Proof.
  apply (proj1 beta0_counts_components ["a"; "b"; "c"] [("a", "b")]).
  apply (bool_decide_unpack _). vm_compute. exact I.
Defined.

(** ** C4 *)

Lemma canon_pairs_app raw1 raw2 :
  canon_pairs (raw1 ++ raw2) = canon_pairs raw1 ++ canon_pairs raw2.
Proof. apply omap_app. Qed.

Lemma canon_pairs_cons p raw :
  canon_pairs (p :: raw) = canon_pairs [p] ++ canon_pairs raw.
Proof. apply (canon_pairs_app [p] raw). Qed.

Lemma canon_pairs_swap u v : canon_pairs [(u, v)] = canon_pairs [(v, u)].
Proof.
  unfold canon_pairs. simpl.
  repeat case_decide; subst; try done. by rewrite sorted_pair_swap.
Qed.

Lemma invariants_ext raw1 raw2 :
  simplicial_complex_from_edges raw1 = simplicial_complex_from_edges raw2 →
  invariants raw1 = invariants raw2.
Proof. unfold invariants. by intros ->. Qed.

(** Claim C4.  The complex depends only on the set of canonicalized
    non-loop pairs of the input: two inputs with the same set give the
    same vertex list, the same edge list and the same invariants.  So do,
    in particular, a permutation of the input, the input with the two
    components of a pair swapped, and the input with a pair repeated. *)
Theorem build_depends_on_canon_set :
  (∀ raw1 raw2 : list edge,
     (∀ p, p ∈ canon_pairs raw1 ↔ p ∈ canon_pairs raw2) →
     simplicial_complex_from_edges raw1 = simplicial_complex_from_edges raw2 ∧
     invariants raw1 = invariants raw2) ∧
  (∀ raw1 raw2 : list edge,
     raw1 ≡ₚ raw2 →
     simplicial_complex_from_edges raw1 = simplicial_complex_from_edges raw2) ∧
  (∀ (pre post : list edge) (u v : vertex),
     simplicial_complex_from_edges (pre ++ (u, v) :: post)
     = simplicial_complex_from_edges (pre ++ (v, u) :: post)) ∧
  (∀ (pre post : list edge) (p : edge),
     p ∈ pre ++ post →
     simplicial_complex_from_edges (pre ++ p :: post)
     = simplicial_complex_from_edges (pre ++ post)).
Proof.
  split; [|split; [|split]].
  - intros raw1 raw2 Hsame.
    pose proof (build_ext raw1 raw2 Hsame) as Heq.
    split; [done | by apply invariants_ext].
  - intros raw1 raw2 Hperm. apply build_ext. intros p.
    unfold canon_pairs. by rewrite Hperm.
  - intros pre post u v. apply build_ext. intros p.
    rewrite !(canon_pairs_app pre).
    rewrite (canon_pairs_cons (u, v)), (canon_pairs_cons (v, u)).
    by rewrite (canon_pairs_swap u v).
  - intros pre post p Hp. apply build_ext. intros q.
    rewrite !elem_of_canon_pairs.
    split; intros (u & v & Huv & Hrest); exists u, v; (split; [|done]).
    + rewrite elem_of_app, elem_of_cons in Huv. rewrite elem_of_app in Hp |- *.
      destruct Huv as [? | [-> | ?]]; auto.
    + rewrite elem_of_app, elem_of_cons. rewrite elem_of_app in Huv.
      destruct Huv; auto.
Qed.

Lemma build_depends_on_canon_set_witness :
  simplicial_complex_from_edges [("b", "a"); ("c", "a")]
  = simplicial_complex_from_edges [("a", "c"); ("a", "b"); ("c", "a")] ∧
  invariants [("b", "a"); ("c", "a")]
  = invariants [("a", "c"); ("a", "b"); ("c", "a")].
Proof.
  apply (proj1 build_depends_on_canon_set).
  intros p.
  change (canon_pairs [("b", "a"); ("c", "a")])
    with [("a", "b"); ("a", "c")].
  change (canon_pairs [("a", "c"); ("a", "b"); ("c", "a")])
    with [("a", "c"); ("a", "b"); ("a", "c")].
  rewrite !elem_of_cons. tauto.
Defined.

(** ** C5 *)

(** Claim C5.  The complex the builder returns has no duplicate vertex,
    no duplicate edge, only edges [(a, b)] with [a < b], a sorted vertex
    list and a sorted edge list (sorting them again changes nothing), and
    both endpoints of every edge in its vertex list. *)
Theorem build_canonical (raw : list edge) (vertices : list vertex)
    (edges : list edge) :
  simplicial_complex_from_edges raw = (vertices, edges) →
  NoDup vertices ∧ NoDup edges ∧
  (∀ a b, (a, b) ∈ edges → Order.lt a b) ∧
  Sorted String.le vertices ∧ Sorted Order.edge_le edges ∧
  sorted_vertices vertices = vertices ∧ sorted_edges edges = edges ∧
  (∀ a b, (a, b) ∈ edges → a ∈ vertices ∧ b ∈ vertices).
Proof.
  intros Hbuild.
  pose proof (NoDup_build_vertices raw) as Hndv.
  pose proof (NoDup_build_edges raw) as Hnde.
  pose proof (build_valid raw) as Hvalid.
  pose proof (elem_of_build_edges raw) as Hmem.
  pose proof (build_fst raw) as Hfst. pose proof (build_snd raw) as Hsnd.
  rewrite Hbuild in Hndv, Hnde, Hvalid, Hmem, Hfst, Hsnd. simpl in *.
  assert (Sorted String.le vertices) as Hsv.
  { rewrite Hfst. apply (Sorted_merge_sort String.le). }
  assert (Sorted Order.edge_le edges) as Hse.
  { rewrite Hsnd. apply (Sorted_merge_sort Order.edge_le). }
  split; [done|]. split; [done|]. split.
  { intros a b Hab. eapply canon_pairs_lt. by apply Hmem. }
  split; [done|]. split; [done|]. split.
  { by apply merge_sort_fixed; [apply _..|]. }
  split; [|done].
  by apply merge_sort_fixed; [apply _..|].
Qed.

Lemma build_canonical_witness :
  NoDup ["a"; "b"; "c"] ∧ NoDup [("a", "b"); ("b", "c")] ∧
  (∀ a b, (a, b) ∈ [("a", "b"); ("b", "c")] → Order.lt a b) ∧
  Sorted String.le ["a"; "b"; "c"] ∧
  Sorted Order.edge_le [("a", "b"); ("b", "c")] ∧
  sorted_vertices ["a"; "b"; "c"] = ["a"; "b"; "c"] ∧
  sorted_edges [("a", "b"); ("b", "c")] = [("a", "b"); ("b", "c")] ∧
  (∀ a b, (a, b) ∈ [("a", "b"); ("b", "c")] →
          a ∈ ["a"; "b"; "c"] ∧ b ∈ ["a"; "b"; "c"]).
Proof.
  apply (build_canonical [("c", "b"); ("b", "b"); ("b", "a"); ("b", "c")]).
  vm_compute. reflexivity.
Defined.

(** ** C6 *)

(** Claim C6.  A pair with two equal components leaves the loop state
    as it is, so the complex is the one built without that pair; the
    single pair [(a, a)] gives the empty complex. *)
Theorem build_discards_loops :
  (∀ (st : gset vertex * list edge) (a : vertex), build_step st (a, a) = st) ∧
  (∀ (pre post : list edge) (a : vertex),
     simplicial_complex_from_edges (pre ++ (a, a) :: post)
     = simplicial_complex_from_edges (pre ++ post)) ∧
  (∀ a : vertex, simplicial_complex_from_edges [(a, a)] = ([], [])).
Proof.
  assert (∀ (st : gset vertex * list edge) (a : vertex),
            build_step st (a, a) = st) as Hstep.
  { intros [vs es] a. unfold build_step. by rewrite decide_True. }
  assert (∀ (pre post : list edge) (a : vertex),
            simplicial_complex_from_edges (pre ++ (a, a) :: post)
            = simplicial_complex_from_edges (pre ++ post)) as Hdrop.
  { intros pre post a. unfold simplicial_complex_from_edges, build_loop.
    rewrite !foldl_app. cbn [foldl]. by rewrite Hstep. }
  split; [done|]. split; [done|].
  intros a. etrans; [apply (Hdrop [] [] a)|]. vm_compute. reflexivity.
Qed.

(** ** C7 *)

(** Claim C7.  The empty sequence gives the empty complex, and the
    invariants of the empty complex are [beta0 = 0], [beta1 = 0] and
    [chi = 0]; no call raises. *)
Theorem empty_input :
  simplicial_complex_from_edges [] = ([], []) ∧
  betti_numbers_1d [] [] = Returns (0, 0) ∧
  euler_characteristic 0 0 = 0 ∧
  invariants [] = Returns (0, 0, 0).
Proof. repeat split; vm_compute; reflexivity. Qed.

(** ** C8 *)

(** Claim C8.  On a complex whose edge endpoints lie in its vertex list
    no dictionary lookup fails: the adjacency dictionary is built, the
    traversal returns, and [betti_numbers_1d] returns a pair. *)
Theorem betti_total_on_valid (vertices : list vertex) (edges : list edge) :
  valid_complex vertices edges →
  ∃ adj st beta0,
    build_adj vertices edges = Returns adj ∧
    count_components adj vertices trav_empty 0 = Returns (st, beta0) ∧
    betti_numbers_1d vertices edges =
      Returns (beta0,
               Z.of_nat (length edges) - Z.of_nat (length vertices) + beta0).
Proof.
  intros Hvalid.
  destruct (build_adj_total vertices edges Hvalid) as (adj & Hadj).
  destruct (traverse_valid vertices edges Hvalid) as (st & reps & Hrun & _).
  exists adj, st, (Z.of_nat (length reps)). split; [done|].
  unfold betti_numbers_1d. rewrite Hrun. split; [|done].
  unfold traverse in Hrun. by rewrite Hadj in Hrun.
Qed.

Lemma betti_total_on_valid_witness :
  ∃ adj st beta0,
    build_adj ["a"; "b"; "c"] [("b", "c"); ("c", "c")] = Returns adj ∧
    count_components adj ["a"; "b"; "c"] trav_empty 0 = Returns (st, beta0) ∧
    betti_numbers_1d ["a"; "b"; "c"] [("b", "c"); ("c", "c")] =
      Returns (beta0, 2 - 3 + beta0).
Proof.
  apply (betti_total_on_valid ["a"; "b"; "c"] [("b", "c"); ("c", "c")]).
  apply (bool_decide_unpack _). vm_compute. exact I.
Defined.

(** The empty complex is one of the valid ones. *)
Lemma valid_complex_nil : valid_complex [] [].
Proof. intros u v H. inv H. Qed.

(** ** C9 *)

(** Claim C9.  The [while] loop of a call of [dfs] stops within its
    iteration budget, whatever the dictionary holds (a larger budget
    returns the same), and so does the traversal of any complex.  When the
    traversal runs (the edge endpoints are vertices), the sequence of
    [visited.add] calls holds every vertex and no label twice: it is a
    permutation of a duplicate-free vertex list. *)
Theorem traversal_visits_once :
  (∀ (adj : gmap vertex (list vertex)) (st : trav) (start : vertex),
     dfs adj st start ≠ OutOfFuel ∧
     ∀ fuel, (dfs_fuel adj ≤ fuel)%nat →
             dfs_loop fuel adj st [start] = dfs adj st start) ∧
  (∀ (vertices : list vertex) (edges : list edge),
     traverse vertices edges ≠ OutOfFuel) ∧
  (∀ (vertices : list vertex) (edges : list edge),
     valid_complex vertices edges →
     ∃ st components,
       traverse vertices edges = Returns (st, components) ∧
       NoDup (added st) ∧
       (∀ v, v ∈ added st ↔ v ∈ vertices) ∧
       (NoDup vertices → added st ≡ₚ vertices)).
Proof.
  split.
  { intros adj st start. split; [apply dfs_terminates|].
    intros fuel. apply dfs_fuel_irrelevant. }
  split; [apply traverse_terminates|].
  intros vs es Hvalid.
  destruct (traverse_valid vs es Hvalid)
    as (st & reps & Hrun & _ & [Hnd Hmem] & Hall).
  exists st, (Z.of_nat (length reps)). split; [done|]. split; [done|].
  assert (∀ v, v ∈ added st ↔ v ∈ vs) as Hiff.
  { intros v. by rewrite Hmem, Hall. }
  split; [done|]. intros Hndv. by apply NoDup_Permutation.
Qed.

Lemma traversal_visits_once_witness :
  ∃ st components,
    traverse ["a"; "b"; "c"; "d"] [("a", "b"); ("a", "c"); ("b", "c")]
      = Returns (st, components) ∧
    NoDup (added st) ∧
    (∀ v, v ∈ added st ↔ v ∈ ["a"; "b"; "c"; "d"]) ∧
    (NoDup ["a"; "b"; "c"; "d"] → added st ≡ₚ ["a"; "b"; "c"; "d"]).
Proof.
  apply (proj2 (proj2 traversal_visits_once)).
  apply (bool_decide_unpack _). vm_compute. exact I.
Defined.

(** The order of the [visited.add] calls on a triangle with a fourth,
    isolated vertex. *)
Example traversal_order :
  match traverse ["a"; "b"; "c"; "d"] [("a", "b"); ("a", "c"); ("b", "c")] with
  | Returns (st, components) =>
      added st = ["a"; "c"; "b"; "d"] ∧ components = 2
  | _ => False
  end.
Proof. vm_compute. split; reflexivity. Qed.

(** ** C10 *)

(** Claim C10.  The builder's output is a fixed point of the builder:
    building from the edge list of a built complex returns that same
    vertex list and edge list. *)
Theorem build_idempotent (raw : list edge) (vertices : list vertex)
    (edges : list edge) :
  simplicial_complex_from_edges raw = (vertices, edges) →
  simplicial_complex_from_edges edges = (vertices, edges).
Proof.
  intros Hbuild. rewrite <-Hbuild. apply build_ext. intros p.
  pose proof (elem_of_build_edges raw) as Hmem.
  rewrite Hbuild in Hmem. simpl in Hmem.
  rewrite (elem_of_canon_pairs edges). split.
  - intros (u & v & Huv & Hne & <-). apply Hmem in Huv.
    rewrite sorted_pair_of_lt; [done|]. by eapply canon_pairs_lt.
  - destruct p as [a b]. intros Hp.
    pose proof (canon_pairs_lt raw a b Hp) as Hlt.
    exists a, b. split; [by apply Hmem|]. split; [by destruct Hlt|].
    by apply sorted_pair_of_lt.
Qed.

Lemma build_idempotent_witness :
  simplicial_complex_from_edges [("a", "b"); ("a", "c"); ("c", "d")]
  = (["a"; "b"; "c"; "d"], [("a", "b"); ("a", "c"); ("c", "d")]).
Proof.
  apply (build_idempotent
           [("b", "a"); ("c", "a"); ("a", "b"); ("z", "z"); ("d", "c")]).
  vm_compute. reflexivity.
Defined.

(** * Further properties of the builder *)

(** Property X1.  An edge of the built complex is an input pair, in either orientation,
    written smaller label first. *)
Theorem build_edges_iff (raw : list edge) (a b : vertex) :
  (a, b) ∈ (simplicial_complex_from_edges raw).2 ↔
  Order.lt a b ∧ ((a, b) ∈ raw ∨ (b, a) ∈ raw).
Proof.
  rewrite elem_of_build_edges, elem_of_canon_pairs. split.
  - intros (u & v & Huv & Hne & Hs).
    split; [by eapply sorted_pair_lt|].
    rewrite sorted_pair_eq in Hs.
    destruct (decide (String.le u v)); injection Hs as <- <-; auto.
  - intros [Hlt [Hin | Hin]].
    + exists a, b. split; [done|]. split; [by destruct Hlt|].
      by apply sorted_pair_of_lt.
    + exists b, a. split; [done|]. split; [by destruct Hlt|].
      rewrite sorted_pair_swap. by apply sorted_pair_of_lt.
Qed.

(** Property X2.  The vertices of the built complex are the labels that occur in an
    input pair next to a different label: none is isolated, and a label
    that occurs in self-loops only is absent. *)
Theorem build_vertices_iff (raw : list edge) (x : vertex) :
  x ∈ (simplicial_complex_from_edges raw).1 ↔
  ∃ y, x ≠ y ∧ ((x, y) ∈ raw ∨ (y, x) ∈ raw).
Proof.
  rewrite elem_of_build_vertices. split.
  - intros ([a b] & Hp & Hx). simpl in Hx.
    pose proof (canon_pairs_lt raw a b Hp) as [_ Hne].
    apply elem_of_canon_pairs in Hp as (u & v & Huv & _ & Hs).
    rewrite sorted_pair_eq in Hs.
    destruct (decide (String.le u v)); injection Hs as <- <-;
      destruct Hx as [-> | ->]; eauto.
  - intros (y & Hne & Hin).
    exists (sorted_pair x y). split.
    + apply elem_of_canon_pairs. destruct Hin as [Hin | Hin].
      * by exists x, y.
      * exists y, x. split; [done|]. split; [done|]. apply sorted_pair_swap.
    + rewrite sorted_pair_eq. destruct (decide (String.le x y)); simpl; auto.
Qed.

Lemma length_canon_pairs raw : (length (canon_pairs raw) ≤ length raw)%nat.
Proof.
  unfold canon_pairs. induction raw as [| p raw IH]; [done|].
  cbn [omap list_omap]. destruct (decide (p.1 = p.2)); simpl in *; lia.
Qed.

Lemma endpoints_cons u v es : endpoints ((u, v) :: es) = u :: v :: endpoints es.
Proof. reflexivity. Qed.

Lemma length_endpoints es : length (endpoints es) = (2 * length es)%nat.
Proof.
  induction es as [| [u v] es IH]; [done|].
  rewrite endpoints_cons. simpl. rewrite IH. lia.
Qed.

Lemma elem_of_endpoints es k :
  k ∈ endpoints es ↔ ∃ u v, (u, v) ∈ es ∧ (k = u ∨ k = v).
Proof.
  unfold endpoints. rewrite list_elem_of_bind. split.
  - intros ([u v] & Hk & Hin). simpl in Hk.
    rewrite elem_of_cons, list_elem_of_singleton in Hk. eauto.
  - intros (u & v & Hin & Hk). exists (u, v). split; [|done]. simpl.
    rewrite elem_of_cons, list_elem_of_singleton. done.
Qed.

(** Property X3.  The built complex is no larger than the input: at most one edge per
    input pair and, as no vertex is isolated, at most two vertices per
    edge. *)
Theorem build_size (raw : list edge) (vertices : list vertex)
    (edges : list edge) :
  simplicial_complex_from_edges raw = (vertices, edges) →
  (length edges ≤ length raw)%nat ∧
  (length vertices ≤ 2 * length edges)%nat.
Proof.
  intros Hbuild.
  pose proof (NoDup_build_vertices raw) as Hndv.
  pose proof (NoDup_build_edges raw) as Hnde.
  pose proof (elem_of_build_edges raw) as Hmem.
  pose proof (elem_of_build_vertices raw) as Hvs.
  rewrite Hbuild in Hndv, Hnde, Hmem, Hvs. simpl in Hndv, Hnde, Hmem, Hvs.
  split.
  - etrans; [|apply length_canon_pairs].
    apply submseteq_length, NoDup_submseteq; [done|]. intros p. apply Hmem.
  - rewrite <-length_endpoints.
    apply submseteq_length, NoDup_submseteq; [done|]. intros x Hx.
    apply Hvs in Hx as ([a b] & Hp & Hx). apply elem_of_endpoints.
    exists a, b. split; [by apply Hmem | done].
Qed.

Lemma build_size_witness :
  (length [("a", "b"); ("b", "c")] ≤
   length [("c", "b"); ("b", "b"); ("b", "a"); ("b", "c")])%nat ∧
  (length ["a"; "b"; "c"] ≤ 2 * length [("a", "b"); ("b", "c")])%nat.
Proof.
  apply (build_size [("c", "b"); ("b", "b"); ("b", "a"); ("b", "c")]).
  vm_compute. reflexivity.
Defined.

Lemma canon_pairs_build raw p :
  p ∈ canon_pairs (simplicial_complex_from_edges raw).2 ↔ p ∈ canon_pairs raw.
Proof.
  rewrite (elem_of_canon_pairs (simplicial_complex_from_edges raw).2). split.
  - intros (u & v & Huv & Hne & <-). apply elem_of_build_edges in Huv.
    rewrite sorted_pair_of_lt; [done|]. by eapply canon_pairs_lt.
  - destruct p as [a b]. intros Hp.
    pose proof (canon_pairs_lt raw a b Hp) as Hlt.
    exists a, b. split; [by apply elem_of_build_edges|].
    split; [by destruct Hlt|]. by apply sorted_pair_of_lt.
Qed.

(** Property X4.  Complexes can be merged through their edge lists: the complex of a
    concatenated input is the complex built from the edges of the two
    parts' complexes. *)
Theorem build_app (raw1 raw2 : list edge) :
  simplicial_complex_from_edges (raw1 ++ raw2) =
  simplicial_complex_from_edges
    ((simplicial_complex_from_edges raw1).2
     ++ (simplicial_complex_from_edges raw2).2).
Proof.
  apply build_ext. intros p.
  rewrite !canon_pairs_app, !elem_of_app, !canon_pairs_build. done.
Qed.

(** * Further properties of [betti_numbers_1d] *)

Lemma betti_of_count vs es n :
  valid_complex vs es → component_count vs es n →
  betti_numbers_1d vs es =
    Returns (Z.of_nat n,
             Z.of_nat (length es) - Z.of_nat (length vs) + Z.of_nat n).
Proof.
  intros Hvalid Hn. destruct (betti_valid vs es Hvalid) as (reps & -> & Hreps).
  assert (length reps = n) as ->; [|done].
  eapply component_count_unique; [|exact Hn]. by exists reps.
Qed.

Lemma betti_Returns_count vs es b0 b1 :
  betti_numbers_1d vs es = Returns (b0, b1) →
  valid_complex vs es ∧
  ∃ n, component_count vs es n ∧ b0 = Z.of_nat n ∧
       b1 = Z.of_nat (length es) - Z.of_nat (length vs) + Z.of_nat n.
Proof.
  intros Hrun.
  assert (valid_complex vs es) as Hvalid.
  { unfold betti_numbers_1d in Hrun.
    destruct (traverse vs es) as [r | |] eqn:Htr; try done.
    by eapply traverse_Returns_valid. }
  split; [done|].
  destruct (betti_valid vs es Hvalid) as (reps & Hrun' & Hreps).
  rewrite Hrun' in Hrun. injection Hrun as <- <-.
  exists (length reps). split; [by exists reps | done].
Qed.

(** ** The [KeyError] *)

Lemma first_missing_cons vs u v es :
  first_missing vs ((u, v) :: es) =
  if decide (u ∈ vs) then
    if decide (v ∈ vs) then first_missing vs es else Some v
  else Some u.
Proof.
  unfold first_missing. rewrite endpoints_cons, !filter_cons.
  destruct (decide (u ∈ vs)), (decide (v ∈ vs)); simpl;
    repeat case_decide; done.
Qed.

Lemma first_missing_None vs es :
  first_missing vs es = None ↔ valid_complex vs es.
Proof.
  induction es as [| [u v] es IH].
  - split; [|done]. intros _ a b H. inv H.
  - rewrite first_missing_cons.
    destruct (decide (u ∈ vs)) as [Hu | Hu]; [destruct (decide (v ∈ vs)) as [Hv | Hv]|].
    + rewrite IH. split.
      * intros Hvalid a b [[= -> ->] | Hab]%elem_of_cons; auto.
      * intros Hvalid a b Hab. apply Hvalid. by right.
    + split; [done|]. intros Hvalid. destruct Hv. apply (Hvalid u v). by left.
    + split; [done|]. intros Hvalid. destruct Hu. apply (Hvalid u v). by left.
Qed.

Lemma adj_fill_first_missing vs k es : ∀ adj,
  (∀ x, x ∈ dom adj ↔ x ∈ vs) →
  first_missing vs es = Some k → adj_fill adj es = KeyError k.
Proof.
  induction es as [| [u v] es IH]; intros adj Hdom; [done|].
  rewrite first_missing_cons. simpl.
  destruct (adj_append adj u v) as [adj1 | k1 |] eqn:H1; simpl.
  - apply adj_append_Returns in H1 as (Hu & Hd1 & _).
    rewrite decide_True by by apply Hdom.
    destruct (adj_append adj1 v u) as [adj2 | k2 |] eqn:H2; simpl.
    + apply adj_append_Returns in H2 as (Hv & Hd2 & _).
      rewrite decide_True by (apply Hdom; by rewrite <-Hd1).
      apply IH. intros x. by rewrite Hd2, Hd1.
    + apply adj_append_KeyError in H2 as [-> Hv].
      rewrite decide_False by (rewrite <-Hdom, <-Hd1; done). by intros [= ->].
    + by apply adj_append_not_fuel in H2.
  - apply adj_append_KeyError in H1 as [-> Hu].
    rewrite decide_False by (by rewrite <-Hdom). by intros [= ->].
  - by apply adj_append_not_fuel in H1.
Qed.

(** Property X5.  [betti_numbers_1d] raises [KeyError k] exactly when [k] is the first
    endpoint, reading the edge list from its start and each pair from its
    first component, that is not in the vertex list. *)
Theorem betti_KeyError_iff (vertices : list vertex) (edges : list edge)
    (k : vertex) :
  betti_numbers_1d vertices edges = KeyError k ↔
  first_missing vertices edges = Some k.
Proof.
  assert (∀ k', first_missing vertices edges = Some k' →
                betti_numbers_1d vertices edges = KeyError k') as Hraise.
  { intros k' Hk'. unfold betti_numbers_1d, traverse, build_adj.
    rewrite (adj_fill_first_missing vertices k'); [done | | done].
    apply adj_init_dom. }
  split; [|apply Hraise].
  destruct (first_missing vertices edges) as [k' |] eqn:Hfm.
  - rewrite (Hraise k' eq_refl). by intros [= ->].
  - apply first_missing_None in Hfm.
    by destruct (betti_valid _ _ Hfm) as (reps & -> & _).
Qed.

(** ** Independence of the order of the two lists *)

Lemma connected_ext es es' u v :
  (∀ a b, adjacent es a b → adjacent es' a b) →
  connected es u v → connected es' u v.
Proof. intros Hsub. by apply rtc_subrel. Qed.

Lemma component_reps_ext vs vs' es es' reps :
  (∀ x, x ∈ vs ↔ x ∈ vs') →
  (∀ a b, adjacent es a b ↔ adjacent es' a b) →
  component_reps vs es reps → component_reps vs' es' reps.
Proof.
  intros Hvs Hes (Hnd & Hin & Hsep & Hcov).
  split; [done|]. split; [intros r Hr; by apply Hvs, Hin|]. split.
  - intros r1 r2 H1 H2 Hc. apply Hsep; [done..|].
    eapply connected_ext; [|exact Hc]. intros a b. apply Hes.
  - intros v Hv. destruct (Hcov v) as (r & Hr & Hc); [by apply Hvs|].
    exists r. split; [done|].
    eapply connected_ext; [|exact Hc]. intros a b. apply Hes.
Qed.

(** Property X6.  On a complex whose edge endpoints are vertices the result does not
    depend on the order in which the vertices and the edges are listed. *)
Theorem betti_permutation (vertices vertices' : list vertex)
    (edges edges' : list edge) :
  valid_complex vertices edges →
  vertices ≡ₚ vertices' → edges ≡ₚ edges' →
  betti_numbers_1d vertices' edges' = betti_numbers_1d vertices edges.
Proof.
  intros Hvalid Hvs Hes.
  destruct (betti_valid _ _ Hvalid) as (reps & -> & Hreps).
  assert (valid_complex vertices' edges') as Hvalid'.
  { intros u v Huv. rewrite <-Hvs. apply Hvalid. by rewrite Hes. }
  rewrite (betti_of_count vertices' edges' (length reps)); [|done|].
  - by rewrite Hvs, Hes.
  - exists reps. split; [|done].
    eapply component_reps_ext; [| |exact Hreps].
    + intros x. by rewrite Hvs.
    + intros a b. unfold adjacent. by rewrite Hes.
Qed.

Lemma betti_permutation_witness :
  betti_numbers_1d ["c"; "a"; "b"] [("b", "c"); ("a", "b")] =
  betti_numbers_1d ["a"; "b"; "c"] [("a", "b"); ("b", "c")].
Proof.
  apply betti_permutation.
  - apply (bool_decide_unpack _). vm_compute. exact I.
  - symmetry. apply (Permutation_cons_append ["a"; "b"] "c").
  - apply perm_swap.
Defined.

(** ** Bounds *)

Lemma component_reps_length_le_vertices vs es reps :
  component_reps vs es reps → (length reps ≤ length vs)%nat.
Proof.
  intros (Hnd & Hin & _). by apply submseteq_length, NoDup_submseteq.
Qed.

Lemma component_reps_nil_iff vs es reps :
  component_reps vs es reps → reps = [] ↔ vs = [].
Proof.
  intros (_ & Hin & _ & Hcov). split.
  - intros ->. destruct vs as [| v vs]; [done|].
    destruct (Hcov v) as (r & Hr & _); [by left | inv Hr].
  - intros ->. destruct reps as [| r reps]; [done|].
    assert (r ∈ @nil vertex) as Hr by (apply Hin; by left). inv Hr.
Qed.

(** Property X7.  On a complex whose edge endpoints are vertices, [beta0] lies between
    0 and the number of listed vertices and is 0 only for the complex
    without vertices; when no vertex is listed twice, [beta1] lies between
    0 and the number of listed edges. *)
Theorem betti_bounds (vertices : list vertex) (edges : list edge) :
  valid_complex vertices edges →
  ∃ beta0 beta1 : Z,
    betti_numbers_1d vertices edges = Returns (beta0, beta1) ∧
    0 ≤ beta0 ≤ Z.of_nat (length vertices) ∧
    (beta0 = 0 ↔ vertices = []) ∧
    (NoDup vertices → 0 ≤ beta1 ≤ Z.of_nat (length edges)).
Proof.
  intros Hvalid. destruct (betti_valid _ _ Hvalid) as (reps & Hrun & Hreps).
  eexists _, _. split; [exact Hrun|].
  pose proof (component_reps_length_le_vertices _ _ _ Hreps) as Hle.
  split; [lia|]. split.
  - rewrite <-(component_reps_nil_iff _ _ _ Hreps).
    destruct reps; simpl; split; (done || lia).
  - intros Hnd.
    destruct (component_count_bound _ _ Hnd Hvalid) as (n & Hn & Hbound).
    assert (length reps = n) as <-.
    { eapply component_count_unique; [|exact Hn]. by exists reps. }
    lia.
Qed.

Lemma betti_bounds_witness :
  ∃ beta0 beta1 : Z,
    betti_numbers_1d ["a"; "b"; "c"; "d"] [("a", "b"); ("b", "a"); ("c", "c")]
      = Returns (beta0, beta1) ∧
    0 ≤ beta0 ≤ 4 ∧
    (beta0 = 0 ↔ ["a"; "b"; "c"; "d"] = []) ∧
    (NoDup ["a"; "b"; "c"; "d"] → 0 ≤ beta1 ≤ 3).
Proof.
  apply (betti_bounds ["a"; "b"; "c"; "d"]
           [("a", "b"); ("b", "a"); ("c", "c")]).
  apply (bool_decide_unpack _). vm_compute. exact I.
Defined.

(** ** One more edge, one more vertex *)

(** What one more edge does to a system of representatives. *)
Lemma component_reps_cons vs es reps a b :
  component_reps vs es reps → a ∈ vs → b ∈ vs →
  ∃ reps',
    component_reps vs ((a, b) :: es) reps' ∧
    ((connected es a b ∧ length reps' = length reps) ∨
     (¬ connected es a b ∧ S (length reps') = length reps)).
Proof.
  intros (Hnr & Hin & Hsep & Hcov) Ha Hb.
  destruct (Hcov a Ha) as (ra & Hra & Hca).
  destruct (Hcov b Hb) as (rb & Hrb & Hcb).
  assert (connected ((a, b) :: es) a b) as Hab.
  { apply connected_once. left. by left. }
  destruct (decide (ra = rb)) as [-> | Hne].
  - exists reps. split.
    2:{ left. split; [|done]. etrans; [symmetry; exact Hca | exact Hcb]. }
    split; [done|]. split; [done|]. split.
    + intros r1 r2 Hr1 Hr2 Hc.
      destruct (connected_cons_inv _ _ _ _ _ Hc) as [H | [[H1 H2] | [H1 H2]]].
      * by apply Hsep.
      * trans rb; [|symmetry]; apply Hsep; try done.
        -- etrans; [exact H1 | by symmetry].
        -- etrans; [symmetry; exact H2 | by symmetry].
      * trans rb; [|symmetry]; apply Hsep; try done.
        -- etrans; [exact H1 | by symmetry].
        -- etrans; [symmetry; exact H2 | by symmetry].
    + intros v Hv. destruct (Hcov v Hv) as (r & Hr & Hc).
      exists r. split; [done | by apply connected_cons].
  - apply list_elem_of_split in Hrb as (k1 & k2 & ->).
    assert (rb ∉ k1 ++ k2) as Hrb'.
    { apply NoDup_app in Hnr as (_ & Hd & Hk2%NoDup_cons).
      rewrite elem_of_app. intros [H | H]; [|naive_solver].
      apply (Hd rb H). by left. }
    assert (∀ x, x ∈ k1 ++ rb :: k2 ↔ x = rb ∨ x ∈ k1 ++ k2) as Hmem.
    { intros x. rewrite !elem_of_app, elem_of_cons. naive_solver. }
    exists (k1 ++ k2). split.
    2:{ right. split.
        - intros Hc. apply Hne. apply Hsep; [done | apply Hmem; by left |].
          etrans; [exact Hca|]. etrans; [exact Hc | by symmetry].
        - rewrite !length_app. simpl. lia. }
    split.
    { apply NoDup_app in Hnr as (? & Hd & Hk2%NoDup_cons).
      apply NoDup_app. split; [done|]. split; [|naive_solver].
      intros x Hx Hx2. apply (Hd x Hx). by right. }
    split; [intros r Hr; apply Hin, Hmem; by right|]. split.
    + intros r1 r2 Hr1 Hr2 Hc.
      assert (r1 ∈ k1 ++ rb :: k2) as Hr1' by (apply Hmem; by right).
      assert (r2 ∈ k1 ++ rb :: k2) as Hr2' by (apply Hmem; by right).
      destruct (connected_cons_inv _ _ _ _ _ Hc) as [H | [[H1 H2] | [H1 H2]]].
      * by apply Hsep.
      * destruct Hrb'. replace rb with r2; [done|].
        symmetry. apply Hsep; [apply Hmem; by left | done |].
        by etrans.
      * destruct Hrb'. replace rb with r1; [done|].
        symmetry. apply Hsep; [apply Hmem; by left | done |].
        etrans; [exact Hcb | by symmetry].
    + intros v Hv. destruct (Hcov v Hv) as (r & Hr & Hc).
      apply Hmem in Hr as [-> | Hr].
      * exists ra. split.
        -- apply Hmem in Hra as [? | ?]; done.
        -- etrans; [apply connected_cons, Hca|].
           etrans; [exact Hab|]. apply connected_cons.
           etrans; [symmetry; exact Hcb | exact Hc].
      * exists r. split; [done | by apply connected_cons].
Qed.

Lemma valid_complex_cons vs es a b :
  valid_complex vs es → a ∈ vs → b ∈ vs → valid_complex vs ((a, b) :: es).
Proof.
  intros Hvalid Ha Hb u v [[= -> ->] | Huv]%elem_of_cons; auto.
Qed.

(** Property X8.  An edge between two vertices that a path already joins (a self-loop
    included) closes a cycle: [beta0] stays and [beta1] grows by one. *)
Theorem betti_add_edge_cycle (vertices : list vertex) (edges : list edge)
    (a b : vertex) (beta0 beta1 : Z) :
  betti_numbers_1d vertices edges = Returns (beta0, beta1) →
  a ∈ vertices → b ∈ vertices → connected edges a b →
  betti_numbers_1d vertices ((a, b) :: edges) = Returns (beta0, beta1 + 1).
Proof.
  intros Hrun Ha Hb Hc.
  apply betti_Returns_count in Hrun
    as (Hvalid & n & (reps & Hreps & <-) & -> & ->).
  destruct (component_reps_cons _ _ _ a b Hreps Ha Hb)
    as (reps' & Hreps' & [[_ Hlen] | [Hnc _]]); [|done].
  rewrite (betti_of_count vertices ((a, b) :: edges) (length reps'));
    [| by apply valid_complex_cons | by exists reps'].
  rewrite Hlen. simpl length. f_equal. f_equal. lia.
Qed.

Lemma betti_add_edge_cycle_witness :
  betti_numbers_1d ["a"; "b"; "c"] [("a", "c"); ("a", "b"); ("b", "c")]
  = Returns (1, 0 + 1).
Proof.
  apply betti_add_edge_cycle.
  - vm_compute. reflexivity.
  - by left.
  - right. right. by left.
  - apply rtc_l with "b"; [left; by left|].
    apply rtc_once. left. right. by left.
Defined.

(** Property X9.  An edge between two vertices that no path joins merges their
    components: [beta0] drops by one and [beta1] stays. *)
Theorem betti_add_edge_bridge (vertices : list vertex) (edges : list edge)
    (a b : vertex) (beta0 beta1 : Z) :
  betti_numbers_1d vertices edges = Returns (beta0, beta1) →
  a ∈ vertices → b ∈ vertices → ¬ connected edges a b →
  betti_numbers_1d vertices ((a, b) :: edges) = Returns (beta0 - 1, beta1).
Proof.
  intros Hrun Ha Hb Hnc.
  apply betti_Returns_count in Hrun
    as (Hvalid & n & (reps & Hreps & <-) & -> & ->).
  destruct (component_reps_cons _ _ _ a b Hreps Ha Hb)
    as (reps' & Hreps' & [[Hc _] | [_ Hlen]]); [done|].
  rewrite (betti_of_count vertices ((a, b) :: edges) (length reps'));
    [| by apply valid_complex_cons | by exists reps'].
  rewrite <-Hlen. simpl length. f_equal. f_equal; lia.
Qed.

Lemma betti_add_edge_bridge_witness :
  betti_numbers_1d ["a"; "b"] [("a", "b")] = Returns (2 - 1, 0).
Proof.
  apply betti_add_edge_bridge.
  - vm_compute. reflexivity.
  - by left.
  - right. by left.
  - by intros H%connected_nil.
Defined.

Lemma connected_isolated es v x :
  (∀ a b, (a, b) ∈ es → a ≠ v ∧ b ≠ v) → connected es v x → x = v.
Proof.
  intros Hiso Hc. apply rtc_inv in Hc as [-> | (y & [Hy | Hy] & _)]; [done | |].
  - by destruct (Hiso _ _ Hy) as [? _].
  - by destruct (Hiso _ _ Hy) as [_ ?].
Qed.

(** Property X10.  A new vertex is a component of its own: [beta0] grows by one and
    [beta1] stays. *)
Theorem betti_add_vertex (vertices : list vertex) (edges : list edge)
    (v : vertex) (beta0 beta1 : Z) :
  betti_numbers_1d vertices edges = Returns (beta0, beta1) →
  v ∉ vertices →
  betti_numbers_1d (v :: vertices) edges = Returns (beta0 + 1, beta1).
Proof.
  intros Hrun Hv.
  apply betti_Returns_count in Hrun
    as (Hvalid & n & (reps & (Hnd & Hin & Hsep & Hcov) & <-) & -> & ->).
  assert (∀ a b, (a, b) ∈ edges → a ≠ v ∧ b ≠ v) as Hiso.
  { intros a b Hab. destruct (Hvalid a b Hab).
    split; intros ->; done. }
  rewrite (betti_of_count (v :: vertices) edges (length (v :: reps))).
  - simpl length. f_equal. f_equal; lia.
  - intros a b Hab. destruct (Hvalid a b Hab). split; by right.
  - exists (v :: reps). split; [|done]. split.
    { apply NoDup_cons. split; [|done]. intros Hr. by apply Hv, Hin. }
    split.
    { intros r [-> | Hr]%elem_of_cons; [by left | right; auto]. }
    split.
    + intros r1 r2 [-> | H1]%elem_of_cons [-> | H2]%elem_of_cons Hc; auto.
      * symmetry. by eapply connected_isolated.
      * symmetry in Hc. by eapply connected_isolated.
    + intros x [-> | Hx]%elem_of_cons.
      * exists v. split; [by left | done].
      * destruct (Hcov x Hx) as (r & Hr & Hc). exists r. split; [by right | done].
Qed.

Lemma betti_add_vertex_witness :
  betti_numbers_1d ["c"; "a"; "b"] [("a", "b")] = Returns (1 + 1, 0).
Proof.
  apply betti_add_vertex.
  - vm_compute. reflexivity.
  - apply (bool_decide_unpack _). vm_compute. exact I.
Defined.

(** Property X11.  Without edges every vertex is a component: for a
    duplicate-free vertex list the result is [(|V|, 0)]. *)
Theorem betti_no_edges (vertices : list vertex) :
  NoDup vertices →
  betti_numbers_1d vertices [] = Returns (Z.of_nat (length vertices), 0).
Proof.
  intros Hnd.
  rewrite (betti_of_count vertices [] (length vertices)).
  - f_equal. f_equal. simpl. lia.
  - intros a b H. inv H.
  - exists vertices. split; [|done]. split; [done|]. split; [done|]. split.
    + intros r1 r2 _ _. apply connected_nil.
    + intros v Hv. by exists v.
Qed.

Lemma betti_no_edges_witness :
  betti_numbers_1d ["x"; "y"; "z"] [] = Returns (3, 0).
Proof.
  apply (betti_no_edges ["x"; "y"; "z"]).
  apply (bool_decide_unpack _). vm_compute. exact I.
Defined.

(** ** The adjacency dictionary, entry by entry *)

Lemma arcs_cons u v es : arcs ((u, v) :: es) = (u, v) :: (v, u) :: arcs es.
Proof. reflexivity. Qed.

Lemma neighbours_cons u v es k :
  neighbours ((u, v) :: es) k =
  (if decide (u = k) then [v] else []) ++
  (if decide (v = k) then [u] else []) ++ neighbours es k.
Proof.
  unfold neighbours. rewrite arcs_cons. cbn [omap list_omap fst snd].
  destruct (decide (u = k)), (decide (v = k)); reflexivity.
Qed.

Lemma adj_append_lookup adj u v adj' k :
  adj_append adj u v = Returns adj' →
  adj' !! k = (λ l, l ++ if decide (u = k) then [v] else []) <$> adj !! k.
Proof.
  unfold adj_append. destruct (adj !! u) as [l |] eqn:Hu; [|done].
  intros [= <-]. destruct (decide (u = k)) as [-> | Hne].
  - by rewrite lookup_insert_eq, Hu.
  - rewrite lookup_insert_ne by done.
    destruct (adj !! k); simpl; [by rewrite app_nil_r | done].
Qed.

Lemma adj_fill_lookup es k : ∀ adj adj',
  adj_fill adj es = Returns adj' →
  adj' !! k = (λ l, l ++ neighbours es k) <$> adj !! k.
Proof.
  induction es as [| [u v] es IH]; intros adj adj' Hrun.
  - simpl in Hrun. injection Hrun as <-.
    destruct (adj !! k); simpl; [by rewrite app_nil_r | done].
  - simpl in Hrun.
    destruct (adj_append adj u v) as [adj1 | |] eqn:H1; try done.
    simpl in Hrun.
    destruct (adj_append adj1 v u) as [adj2 | |] eqn:H2; try done.
    simpl in Hrun.
    rewrite (IH _ _ Hrun), (adj_append_lookup _ _ _ _ k H2),
      (adj_append_lookup _ _ _ _ k H1), neighbours_cons.
    destruct (adj !! k); simpl; [|done]. by rewrite <-!app_assoc.
Qed.

(** Property X12.  The dictionary that [build_adj] returns has the vertices as its keys,
    and lists under a key the other ends of the edges at that vertex, in
    the order of the edge list, once per edge (a self-loop twice). *)
Theorem build_adj_lookup (vertices : list vertex) (edges : list edge)
    (adj : gmap vertex (list vertex)) (k : vertex) :
  build_adj vertices edges = Returns adj →
  adj !! k = if decide (k ∈ vertices) then Some (neighbours edges k) else None.
Proof.
  intros Hrun. unfold build_adj in Hrun.
  rewrite (adj_fill_lookup _ k _ _ Hrun), adj_init_lookup.
  by destruct (decide (k ∈ vertices)).
Qed.

Lemma build_adj_lookup_witness :
  ∃ adj,
    build_adj ["a"; "b"; "c"] [("a", "b"); ("c", "a"); ("a", "a")]
      = Returns adj ∧
    adj !! "a" =
      (if decide ("a" ∈ ["a"; "b"; "c"])
       then Some (neighbours [("a", "b"); ("c", "a"); ("a", "a")] "a")
       else None) ∧
    neighbours [("a", "b"); ("c", "a"); ("a", "a")] "a" = ["b"; "c"; "a"; "a"].
Proof.
  eexists. split; [vm_compute; reflexivity|]. split; [|reflexivity].
  apply (build_adj_lookup ["a"; "b"; "c"] [("a", "b"); ("c", "a"); ("a", "a")]).
  vm_compute. reflexivity.
Defined.

(** ** One call of [dfs] *)

Lemma dfs_loop_cons adj fuel st node rest :
  dfs_loop (S fuel) adj st (node :: rest) =
  if decide (node ∈ visited st) then dfs_loop fuel adj st rest
  else match adj !! node with
       | None => KeyError node
       | Some neis =>
           dfs_loop fuel adj (visit node st)
             (push_unvisited (visited (visit node st)) neis rest)
       end.
Proof. reflexivity. Qed.

Lemma dfs_loop_added adj fuel : ∀ st stack st',
  dfs_loop fuel adj st stack = Returns st' →
  ∃ new, added st' = added st ++ new.
Proof.
  induction fuel as [| fuel IH]; intros st stack st' Hrun; [done|].
  simpl in Hrun. destruct stack as [| node rest].
  - injection Hrun as <-. exists []. by rewrite app_nil_r.
  - destruct (decide (node ∈ visited st)); [by eapply IH|].
    destruct (adj !! node); [|done].
    apply IH in Hrun as (new & ->). simpl.
    exists (node :: new). by rewrite <-app_assoc.
Qed.

(** Property X13.  Called on an unvisited vertex [start] while [visited] is closed under
    adjacency, [dfs] adds to [visited] exactly the vertices that a path
    joins to [start]; the first label it adds is [start], and the earlier
    additions are kept. *)
Theorem dfs_visits_component (vertices : list vertex) (edges : list edge)
    (adj : gmap vertex (list vertex)) (st : trav) (start : vertex) :
  build_adj vertices edges = Returns adj →
  trav_ok st →
  (∀ x, x ∈ visited st → x ∈ vertices) →
  (∀ u v, u ∈ visited st → adjacent edges u v → v ∈ visited st) →
  start ∈ vertices → start ∉ visited st →
  ∃ st' new,
    dfs adj st start = Returns st' ∧
    (∀ x, x ∈ visited st' ↔ x ∈ visited st ∨ connected edges start x) ∧
    added st' = added st ++ start :: new ∧
    trav_ok st'.
Proof.
  intros Hadj%build_adj_Returns Htr Hk Hcl Hstart Hnew.
  destruct (dfs_loop_run vertices edges adj Hadj (visited st) start
              (dfs_fuel adj) st [start])
    as (st' & Hrun & [Htr' Hvk' _ Hfr' Hre' Hgr' Hroot']).
  { split; try done.
    - by intros x ->%list_elem_of_singleton.
    - intros u v Hu Huv. left. by eapply Hcl.
    - intros x [Hx | ->%list_elem_of_singleton]; [by left | by right].
    - right. by left. }
  { simpl. apply dfs_fuel_enough. }
  assert (∃ new, added st' = added st ++ start :: new) as (new & Hadded).
  { unfold dfs_fuel in Hrun. rewrite dfs_loop_cons in Hrun.
    rewrite decide_False in Hrun by done.
    destruct (adj !! start); [|done].
    apply dfs_loop_added in Hrun as (new & ->). simpl.
    exists new. by rewrite <-app_assoc. }
  exists st', new. split; [done|]. split; [|done].
  intros x. split.
  - intros Hx. apply Hre'. by left.
  - intros [Hx | Hc]; [by apply Hgr'|].
    apply (closed_connected edges (visited st') start x).
    + intros a b Ha Hab. by destruct (Hfr' a b Ha Hab) as [? | H]; [|inv H].
    + by destruct Hroot' as [? | H]; [|inv H].
    + done.
Qed.

Lemma dfs_visits_component_witness :
  ∃ adj,
    build_adj ["a"; "b"; "c"; "d"] [("a", "b"); ("c", "d"); ("b", "a")]
      = Returns adj ∧
    ∃ st' new,
      dfs adj trav_empty "c" = Returns st' ∧
      (∀ x, x ∈ visited st' ↔
            x ∈ visited trav_empty ∨
            connected [("a", "b"); ("c", "d"); ("b", "a")] "c" x) ∧
      added st' = added trav_empty ++ "c" :: new ∧
      trav_ok st'.
Proof.
  eexists. split; [vm_compute; reflexivity|].
  apply (dfs_visits_component
           ["a"; "b"; "c"; "d"] [("a", "b"); ("c", "d"); ("b", "a")]).
  - vm_compute. reflexivity.
  - apply trav_ok_empty.
  - intros x Hx. inv Hx.
  - intros u v Hu. inv Hu.
  - apply (bool_decide_unpack _). vm_compute. exact I.
  - apply not_elem_of_empty.
Defined.

(** * The [simplicial] command *)

(** ** Strings *)

Lemma app_cons_str b (s t : string) : String b s +:+ t = String b (s +:+ t).
Proof. reflexivity. Qed.

Lemma app_empty_l (t : string) : "" +:+ t = t.
Proof. reflexivity. Qed.

Lemma app_empty_r (s : string) : s +:+ "" = s.
Proof.
  induction s as [| b s IH]; [done|]. by rewrite app_cons_str, IH.
Qed.

Lemma app_assoc_str (s t u : string) : (s +:+ t) +:+ u = s +:+ (t +:+ u).
Proof.
  induction s as [| b s IH]; [done|]. by rewrite !app_cons_str, IH.
Qed.

Lemma count_char_app b s t :
  count_char b (s +:+ t) = (count_char b s + count_char b t)%nat.
Proof.
  induction s as [| b' s IH]; [done|].
  rewrite app_cons_str. simpl. rewrite IH. lia.
Qed.

Lemma contains_count b s : contains b s = false ↔ count_char b s = 0%nat.
Proof.
  induction s as [| b' s IH]; simpl; [done|].
  destruct (decide (b' = b)) as [-> | Hne].
  - rewrite bool_decide_eq_true_2 by done. simpl. split; [done | lia].
  - rewrite bool_decide_eq_false_2 by done. simpl. rewrite IH. done.
Qed.

Lemma contains_true_count b s :
  contains b s = true ↔ (0 < count_char b s)%nat.
Proof.
  pose proof (contains_count b s) as [H1 H2].
  destruct (contains b s); split; intros H; try done.
  - destruct (count_char b s); [|lia]. by discriminate H2.
  - rewrite H1 in H by done. lia.
Qed.

Lemma flatten_app cs1 cs2 : flatten (cs1 ++ cs2) = flatten cs1 +:+ flatten cs2.
Proof.
  induction cs1 as [| c cs1 IH]; simpl; [done|].
  by rewrite IH, app_assoc_str.
Qed.

Lemma count_char_flatten b cs :
  count_char b (flatten cs) = sum_list_with (count_char b) cs.
Proof.
  induction cs as [| c cs IH]; simpl; [done|].
  by rewrite count_char_app, IH.
Qed.

(** ** [split] *)

Lemma split_on_cons sep s : ∃ p ps, split_on sep s = p :: ps.
Proof.
  destruct s as [| b s]; simpl; [eauto|].
  destruct (decide (b = sep)); [eauto|].
  destruct (split_on sep s); eauto.
Qed.

Lemma length_split_on sep s :
  length (split_on sep s) = S (count_char sep s).
Proof.
  induction s as [| b s IH]; simpl; [done|].
  destruct (decide (b = sep)); simpl; [by rewrite IH|].
  destruct (split_on sep s); simpl in *; done.
Qed.

(** No item of [s.split(sep)] holds the separator, and a byte of an item
    is a byte of [s]. *)
Lemma split_on_items sep s p :
  p ∈ split_on sep s →
  contains sep p = false ∧ ∀ b, (count_char b p ≤ count_char b s)%nat.
Proof.
  revert p. induction s as [| c s IH]; intros p; simpl.
  - intros ->%list_elem_of_singleton. done.
  - destruct (decide (c = sep)) as [-> | Hne].
    + intros [-> | Hp]%elem_of_cons; [split; [done | simpl; lia]|].
      destruct (IH p Hp) as [? Hle]. split; [done|].
      intros b. specialize (Hle b). lia.
    + destruct (split_on sep s) as [| q qs] eqn:Hq.
      * intros ->%list_elem_of_singleton. simpl.
        rewrite bool_decide_eq_false_2 by done. split; [done|].
        intros b. lia.
      * intros [-> | Hp]%elem_of_cons.
        -- destruct (IH q) as [Hq1 Hq2]; [by left|]. simpl.
           rewrite bool_decide_eq_false_2 by done. split; [done|].
           intros b. specialize (Hq2 b). lia.
        -- destruct (IH p) as [? Hle]; [by right|]. split; [done|].
           intros b. specialize (Hle b). lia.
Qed.

Lemma split_on_none sep s : contains sep s = false → split_on sep s = [s].
Proof.
  induction s as [| b s IH]; simpl; [done|].
  destruct (decide (b = sep)) as [-> | Hne].
  - by rewrite bool_decide_eq_true_2.
  - rewrite bool_decide_eq_false_2 by done. simpl. intros H. by rewrite IH.
Qed.

Lemma split_on_app sep s t :
  contains sep s = false →
  split_on sep (s +:+ String sep t) = s :: split_on sep t.
Proof.
  induction s as [| b s IH].
  - intros _. rewrite app_empty_l. simpl. by rewrite decide_True.
  - rewrite app_cons_str. simpl. destruct (decide (b = sep)) as [-> | Hne].
    + by rewrite bool_decide_eq_true_2.
    + rewrite bool_decide_eq_false_2 by done. simpl. intros H. by rewrite IH.
Qed.

(** ** Code points *)

Lemma flatten_cons c cs : flatten (c :: cs) = c +:+ flatten cs.
Proof. reflexivity. Qed.

Lemma flatten_chars_step b cs :
  flatten (chars_step b cs) = String b (flatten cs).
Proof.
  destruct cs as [| [| b' c] cs]; try done.
  unfold chars_step. by destruct (negb (is_ascii b) && is_continuation b').
Qed.

Lemma flatten_chars s : flatten (chars s) = s.
Proof.
  induction s as [| b s IH]; [done|].
  simpl. by rewrite flatten_chars_step, IH.
Qed.

Lemma chars_cons b s : chars (String b s) = chars_step b (chars s).
Proof. reflexivity. Qed.

Lemma chars_head b s : ∃ x rest, chars (String b s) = String b x :: rest.
Proof.
  rewrite chars_cons. destruct (chars s) as [| [| b' c] cs]; simpl; eauto.
  destruct (negb (is_ascii b) && is_continuation b'); eauto.
Qed.

Lemma chars_ascii b s :
  is_ascii b = true → chars (String b s) = String b "" :: chars s.
Proof.
  intros Hb. rewrite chars_cons.
  destruct (chars s) as [| [| b' c] cs]; simpl; try done. by rewrite Hb.
Qed.

Lemma chars_step_app b c cs1 cs2 :
  chars_step b ((c :: cs1) ++ cs2) = chars_step b (c :: cs1) ++ cs2.
Proof.
  destruct c as [| b' c]; simpl; [done|].
  by destruct (negb (is_ascii b) && is_continuation b').
Qed.

(** Cutting is compositional at a byte that starts a code point. *)
Lemma chars_app s b t :
  is_continuation b = false →
  chars (s +:+ String b t) = chars s ++ chars (String b t).
Proof.
  intros Hb. induction s as [| a s IH]; [done|].
  rewrite app_cons_str, chars_cons, IH.
  destruct s as [| a' s'].
  - destruct (chars_head b t) as (x & rest & ->). simpl.
    rewrite Hb. by rewrite andb_false_r.
  - destruct (chars_head a' s') as (x & rest & Hx).
    rewrite Hx at 1. rewrite chars_step_app, <-Hx. done.
Qed.

Lemma chars_tail s : ∀ c cs, chars s = c :: cs → chars (flatten cs) = cs.
Proof.
  induction s as [| b s IH]; intros c cs; [done|].
  rewrite chars_cons.
  destruct (chars s) as [| [| b' x] xs] eqn:Hs; simpl.
  - intros [= _ <-]. done.
  - intros [= _ <-]. by rewrite <-Hs, flatten_chars.
  - destruct (negb (is_ascii b) && is_continuation b').
    + intros [= _ <-]. by eapply IH.
    + intros [= _ <-]. by rewrite <-Hs, flatten_chars.
Qed.

Lemma snoc_case {A} (l : list A) : l = [] ∨ ∃ l' x, l = l' ++ [x].
Proof. induction l as [| x l _] using rev_ind; eauto. Qed.

Lemma chars_init s : ∀ cs c, chars s = cs ++ [c] → chars (flatten cs) = cs.
Proof.
  induction s as [| b s IH]; intros cs c.
  - simpl. intros H. by destruct cs.
  - rewrite chars_cons.
    destruct (snoc_case (chars s)) as [Hs | (l & x & Hs)]; rewrite Hs.
    + simpl. intros H. destruct cs as [| ? [| ? ?]]; done.
    + destruct l as [| y ys].
      * simpl. destruct x as [| b' x].
        -- simpl. intros H.
           destruct cs as [| c1 [| c2 [| ? ?]]]; simplify_eq/=. done.
        -- simpl. destruct (negb (is_ascii b) && is_continuation b'); intros H.
           ++ destruct cs as [| ? [| ? ?]]; simplify_eq/=. done.
           ++ destruct cs as [| c1 [| c2 [| ? ?]]]; simplify_eq/=. done.
      * rewrite chars_step_app. intros [<- _]%app_inj_tail.
        rewrite flatten_chars_step, chars_cons. f_equal.
        by eapply IH.
Qed.

(** ** [strip] *)

Lemma length_drop_while {A} (f : A → bool) l :
  (length (drop_while f l) ≤ length l)%nat.
Proof.
  induction l as [| x l IH]; simpl; [done|]. destruct (f x); simpl; lia.
Qed.

Lemma drop_while_fixed {A} (f : A → bool) x l :
  drop_while f (x :: l) = x :: l ↔ f x = false.
Proof.
  simpl. destruct (f x) eqn:Hx; split; try done. intros H.
  pose proof (length_drop_while f l) as Hle. rewrite H in Hle. simpl in Hle. lia.
Qed.

Lemma drop_while_idemp {A} (f : A → bool) l :
  drop_while f (drop_while f l) = drop_while f l.
Proof.
  induction l as [| x l IH]; simpl; [done|].
  destruct (f x) eqn:Hx; [done|]. simpl. by rewrite Hx.
Qed.

Lemma sum_drop_while {A} (f : A → bool) (g : A → nat) l :
  (∀ x, f x = true → g x = 0%nat) →
  sum_list_with g (drop_while f l) = sum_list_with g l.
Proof.
  intros Hz. induction l as [| x l IH]; simpl; [done|].
  destruct (f x) eqn:Hx; [|done]. rewrite IH, (Hz x Hx). done.
Qed.

Lemma rstrip_snoc cs c :
  rstrip_chars (cs ++ [c]) =
  if isspace c then rstrip_chars cs else cs ++ [c].
Proof.
  unfold rstrip_chars. rewrite reverse_snoc. simpl.
  destruct (isspace c); [done|]. by rewrite reverse_cons, reverse_involutive.
Qed.

Lemma rstrip_cons h t :
  isspace h = false → rstrip_chars (h :: t) = h :: rstrip_chars t.
Proof.
  intros Hh. induction t as [| c t IH] using rev_ind.
  - change [h] with ([] ++ [h]). rewrite rstrip_snoc, Hh. done.
  - rewrite app_comm_cons, !rstrip_snoc. by destruct (isspace c).
Qed.

Lemma length_rstrip cs : (length (rstrip_chars cs) ≤ length cs)%nat.
Proof.
  unfold rstrip_chars. rewrite length_reverse.
  etrans; [apply length_drop_while|]. by rewrite length_reverse.
Qed.

Lemma rstrip_idemp cs : rstrip_chars (rstrip_chars cs) = rstrip_chars cs.
Proof.
  unfold rstrip_chars. by rewrite reverse_involutive, drop_while_idemp.
Qed.

Lemma lstrip_rstrip cs :
  lstrip_chars cs = cs → lstrip_chars (rstrip_chars cs) = rstrip_chars cs.
Proof.
  destruct cs as [| h t]; [done|]. intros Hh%drop_while_fixed.
  rewrite rstrip_cons by done. by apply drop_while_fixed.
Qed.

Lemma chars_lstrip cs :
  chars (flatten cs) = cs →
  chars (flatten (lstrip_chars cs)) = lstrip_chars cs.
Proof.
  unfold lstrip_chars. induction cs as [| c cs IH]; [done|]. intros Hcs.
  simpl. destruct (isspace c); [|done]. apply IH. by eapply chars_tail.
Qed.

Lemma chars_rstrip cs :
  chars (flatten cs) = cs →
  chars (flatten (rstrip_chars cs)) = rstrip_chars cs.
Proof.
  induction cs as [| c cs IH] using rev_ind; [done|]. intros Hcs.
  rewrite rstrip_snoc. destruct (isspace c); [|done].
  apply IH. by eapply chars_init.
Qed.

(** The code points of [s.strip()] are those of [s] without the blanks
    at both ends. *)
Lemma chars_strip s :
  chars (strip s) = rstrip_chars (lstrip_chars (chars s)).
Proof.
  unfold strip. apply chars_rstrip, chars_lstrip. by rewrite flatten_chars.
Qed.

Lemma strip_idemp s : strip (strip s) = strip s.
Proof.
  unfold strip at 1. rewrite chars_strip. f_equal.
  rewrite lstrip_rstrip, rstrip_idemp; [done|].
  apply drop_while_idemp.
Qed.

(** Stripping removes none of the bytes that occur in no blank. *)
Lemma count_char_strip b s :
  (∀ c, isspace c = true → count_char b c = 0%nat) →
  count_char b (strip s) = count_char b s.
Proof.
  intros Hz. unfold strip, rstrip_chars, lstrip_chars.
  rewrite count_char_flatten, sum_list_with_reverse, sum_drop_while by done.
  rewrite sum_list_with_reverse, sum_drop_while by done.
  by rewrite <-count_char_flatten, flatten_chars.
Qed.

Lemma isspace_no_dash c : isspace c = true → count_char "-" c = 0%nat.
Proof.
  unfold isspace. intros Hc%bool_decide_eq_true.
  revert c Hc. apply Forall_forall.
  apply (bool_decide_unpack _). vm_compute. exact I.
Qed.

Lemma isspace_no_comma c : isspace c = true → count_char "," c = 0%nat.
Proof.
  unfold isspace. intros Hc%bool_decide_eq_true.
  revert c Hc. apply Forall_forall.
  apply (bool_decide_unpack _). vm_compute. exact I.
Qed.

Lemma chars_nil s : chars s = [] → s = "".
Proof. intros H. by rewrite <-(flatten_chars s), H. Qed.

(** A non-empty string that [strip] leaves alone starts and ends with a
    code point that is no blank. *)
Lemma stripped_ends u :
  strip u = u → u ≠ "" →
  (∃ h t, chars u = h :: t ∧ isspace h = false) ∧
  (∃ i l, chars u = i ++ [l] ∧ isspace l = false).
Proof.
  intros Hu Hne.
  assert (rstrip_chars (lstrip_chars (chars u)) = chars u) as Hcs.
  { by rewrite <-chars_strip, Hu. }
  assert (lstrip_chars (chars u) = chars u) as Hl.
  { pose proof (length_rstrip (lstrip_chars (chars u))) as H1.
    pose proof (length_drop_while isspace (chars u)) as H2.
    rewrite Hcs in H1. fold (lstrip_chars (chars u)) in H2.
    destruct (chars u) as [| h t] eqn:Hc; [done|].
    apply drop_while_fixed. unfold lstrip_chars in H1, H2. simpl in H1, H2.
    destruct (isspace h); [|done].
    pose proof (length_drop_while isspace t). lia. }
  rewrite Hl in Hcs. split.
  - destruct (chars u) as [| h t] eqn:Hc.
    + by apply chars_nil in Hc.
    + exists h, t. split; [done|]. by apply drop_while_fixed in Hl.
  - destruct (snoc_case (chars u)) as [Hc | (i & l & Hc)].
    + by apply chars_nil in Hc.
    + exists i, l. split; [done|]. rewrite Hc in Hcs.
      rewrite rstrip_snoc in Hcs. destruct (isspace l); [|done].
      pose proof (length_rstrip i) as Hle. rewrite Hcs, length_app in Hle.
      simpl in Hle. lia.
Qed.

(** ** The parser *)

Lemma count_dash_strip s : count_char "-" (strip s) = count_char "-" s.
Proof. apply count_char_strip, isspace_no_dash. Qed.

Lemma count_comma_strip s : count_char "," (strip s) = count_char "," s.
Proof. apply count_char_strip, isspace_no_comma. Qed.

(** What one part of the command text does, by its number of dashes. *)
Lemma parse_part_cases acc p :
  (count_char "-" p = 0%nat → parse_part acc p = Parsed acc) ∧
  (count_char "-" p = 1%nat →
     ∃ u v, split_on "-" (strip p) = [u; v] ∧
       parse_part acc p =
         Parsed (if bool_decide (strip u ≠ "") && bool_decide (strip v ≠ "")
                 then acc ++ [(strip u, strip v)] else acc)) ∧
  ((2 ≤ count_char "-" p)%nat → parse_part acc p = ValueError).
Proof.
  unfold parse_part.
  pose proof (count_dash_strip p) as Hn.
  pose proof (length_split_on "-" (strip p)) as Hlen. rewrite Hn in Hlen.
  split; [|split]; intros Hp.
  - assert (contains "-" (strip p) = false) as ->; [|done].
    apply contains_count. by rewrite Hn.
  - assert (contains "-" (strip p) = true) as ->.
    { apply contains_true_count. rewrite Hn. lia. }
    simpl. rewrite Hp in Hlen.
    destruct (split_on "-" (strip p)) as [| u [| v [| ? ?]]]; try done.
    exists u, v. split; [done|].
    by destruct (bool_decide (strip u ≠ "") && bool_decide (strip v ≠ "")).
  - assert (contains "-" (strip p) = true) as ->.
    { apply contains_true_count. rewrite Hn. lia. }
    simpl.
    destruct (split_on "-" (strip p)) as [| u [| v [| ? ?]]]; try done.
    simpl in Hlen. lia.
Qed.

Lemma parse_parts_ValueError parts : ∀ acc,
  parse_parts parts acc = ValueError ↔
  ∃ p, p ∈ parts ∧ (2 ≤ count_char "-" p)%nat.
Proof.
  induction parts as [| p parts IH]; intros acc; simpl.
  - split; [done|]. intros (p & Hp & _). inv Hp.
  - destruct (parse_part_cases acc p) as (H0 & H1 & H2).
    destruct (decide (2 ≤ count_char "-" p)%nat) as [Hge | Hlt].
    + rewrite (H2 Hge). split; [|done]. intros _. exists p. split; [by left | done].
    + assert (∃ acc', parse_part acc p = Parsed acc') as (acc' & ->).
      { destruct (count_char "-" p) as [| [| n]] eqn:Hn; [| |lia].
        - rewrite H0 by done. eauto.
        - destruct H1 as (u & v & _ & ->); eauto. }
      rewrite IH. split.
      * intros (q & Hq & Hc). exists q. split; [by right | done].
      * intros (q & [-> | Hq]%elem_of_cons & Hc); [done | eauto].
Qed.

Lemma clean_strip_piece p u :
  contains "," p = false → u ∈ split_on "-" (strip p) → strip u ≠ "" →
  clean (strip u).
Proof.
  intros Hp Hu Hne. apply split_on_items in Hu as [Hdash Hle].
  split; [done|]. split; [|split].
  - apply contains_count. rewrite count_dash_strip. by apply contains_count.
  - apply contains_count. rewrite count_comma_strip.
    specialize (Hle ","%char). rewrite count_comma_strip in Hle.
    apply contains_count in Hp. lia.
  - apply strip_idemp.
Qed.

Lemma parse_parts_clean parts : ∀ acc es,
  (∀ p, p ∈ parts → contains "," p = false) →
  (∀ u v, (u, v) ∈ acc → clean u ∧ clean v) →
  parse_parts parts acc = Parsed es →
  ∀ u v, (u, v) ∈ es → clean u ∧ clean v.
Proof.
  induction parts as [| p parts IH]; intros acc es Hparts Hacc; simpl.
  - by intros [= <-].
  - destruct (parse_part_cases acc p) as (H0 & H1 & H2).
    assert (contains "," p = false) as Hp by (apply Hparts; by left).
    assert (∀ q, q ∈ parts → contains "," q = false) as Hrest.
    { intros q Hq. apply Hparts. by right. }
    destruct (count_char "-" p) as [| [| n]] eqn:Hn.
    + rewrite H0 by done. by apply IH.
    + destruct H1 as (u0 & v0 & Hsplit & ->); [done|].
      apply IH; [done|].
      destruct (bool_decide (strip u0 ≠ "")) eqn:Hu; [|done].
      destruct (bool_decide (strip v0 ≠ "")) eqn:Hv; [|done].
      simpl. apply bool_decide_eq_true in Hu, Hv.
      intros u v [Huv | [= -> ->]%list_elem_of_singleton]%elem_of_app; [auto|].
      split; apply (clean_strip_piece p); try done; rewrite Hsplit.
      * by left.
      * right. by left.
    + rewrite H2 by lia. done.
Qed.

Lemma parse_edges_clean_labels s es :
  parse_edges s = Parsed es → ∀ u v, (u, v) ∈ es → clean u ∧ clean v.
Proof.
  unfold parse_edges. apply parse_parts_clean.
  - intros p Hp. by apply split_on_items in Hp as [? _].
  - intros u v H. inv H.
Qed.

(** A part that holds two clean labels around one dash, after at most one
    blank, yields that pair. *)
Lemma strip_item u v :
  clean u → clean v →
  strip (u +:+ String "-" v) = u +:+ String "-" v ∧
  strip (String " " (u +:+ String "-" v)) = u +:+ String "-" v.
Proof.
  intros (Hu & _ & _ & Hsu) (Hv & _ & _ & Hsv).
  destruct (stripped_ends u Hsu Hu) as [(h & t & Hh & Hhs) _].
  destruct (stripped_ends v Hsv Hv) as [_ (i & l & Hl & Hls)].
  assert (chars (u +:+ String "-" v) = (h :: t ++ String "-" "" :: i) ++ [l])
    as Hchars.
  { rewrite chars_app by done. rewrite chars_ascii by done.
    rewrite Hh, Hl. simpl. by rewrite <-app_assoc. }
  assert (rstrip_chars (lstrip_chars (chars (u +:+ String "-" v)))
          = chars (u +:+ String "-" v)) as Hfix.
  { rewrite Hchars. unfold lstrip_chars. simpl. rewrite Hhs.
    rewrite app_comm_cons, rstrip_snoc, Hls. done. }
  split.
  - unfold strip. by rewrite Hfix, flatten_chars.
  - unfold strip. rewrite chars_ascii by done.
    unfold lstrip_chars. simpl.
    change (drop_while isspace (chars (u +:+ String "-" v)))
      with (lstrip_chars (chars (u +:+ String "-" v))).
    by rewrite Hfix, flatten_chars.
Qed.

Lemma parse_part_item acc u v pad :
  clean u → clean v →
  pad = "" ∨ pad = " " →
  parse_part acc (pad +:+ (u +:+ String "-" v)) = Parsed (acc ++ [(u, v)]).
Proof.
  intros Hu Hv Hpad. destruct (strip_item u v Hu Hv) as [Hs0 Hs1].
  assert (strip (pad +:+ (u +:+ String "-" v)) = u +:+ String "-" v) as Hs.
  { by destruct Hpad as [-> | ->]. }
  destruct Hu as (Hu & Hud & _ & Hus), Hv as (Hv & Hvd & _ & Hvs).
  unfold parse_part. rewrite Hs.
  assert (contains "-" (u +:+ String "-" v) = true) as ->.
  { apply contains_true_count. rewrite count_char_app. simpl. lia. }
  simpl. rewrite split_on_app by done. rewrite (split_on_none _ v) by done.
  rewrite Hus, Hvs, !bool_decide_eq_true_2 by done. done.
Qed.

Lemma contains_item_comma u v :
  clean u → clean v → contains "," (u +:+ String "-" v) = false.
Proof.
  intros (_ & _ & Hu & _) (_ & _ & Hv & _).
  apply contains_count. rewrite count_char_app. simpl.
  apply contains_count in Hu, Hv. lia.
Qed.

Lemma concat_cons2 sep x y l :
  String.concat sep (x :: y :: l) = x +:+ (sep +:+ String.concat sep (y :: l)).
Proof. reflexivity. Qed.

(** The parts of a joined list of comma-free items: the items, each but
    the first after the blank of the separator. *)
Lemma split_on_concat x items :
  Forall (λ i, contains "," i = false) (x :: items) →
  split_on "," (String.concat ", " (x :: items)) = x :: (String " " <$> items).
Proof.
  revert x. induction items as [| y items IH]; intros x Hall.
  - simpl. apply split_on_none. by inv Hall.
  - rewrite concat_cons2. inv Hall.
    change (", " +:+ String.concat ", " (y :: items))
      with (String "," (String " " (String.concat ", " (y :: items)))).
    rewrite split_on_app by done. f_equal.
    change (split_on "," (String " " ?w))
      with (match split_on "," w with
            | p :: ps => String " " p :: ps
            | [] => [String " " ""]
            end).
    by rewrite IH.
Qed.

Lemma parse_parts_items pad es : ∀ acc,
  pad = "" ∨ pad = " " →
  (∀ u v, (u, v) ∈ es → clean u ∧ clean v) →
  parse_parts ((λ e : edge, pad +:+ (e.1 +:+ String "-" e.2)) <$> es) acc
  = Parsed (acc ++ es).
Proof.
  induction es as [| [u v] es IH]; intros acc Hpad Hclean.
  - simpl. by rewrite app_nil_r.
  - destruct (Hclean u v) as [Hu Hv]; [by left|].
    rewrite fmap_cons. simpl parse_parts.
    rewrite parse_part_item by done.
    rewrite IH; [by rewrite <-app_assoc | done |].
    intros a b Hab. apply Hclean. by right.
Qed.

Lemma parse_edges_text es :
  (∀ u v, (u, v) ∈ es → clean u ∧ clean v) →
  parse_edges (edges_text es) = Parsed es.
Proof.
  intros Hclean. unfold parse_edges, edges_text.
  destruct es as [| [u v] es]; [vm_compute; reflexivity|].
  assert (Forall (λ i, contains "," i = false)
            ((λ e : edge, e.1 +:+ "-" +:+ e.2) <$> (u, v) :: es)) as Hall.
  { apply Forall_forall. intros i ([a b] & -> & Hab)%list_elem_of_fmap.
    destruct (Hclean a b Hab). by apply contains_item_comma. }
  rewrite fmap_cons in Hall |- *. rewrite split_on_concat by exact Hall.
  destruct (Hclean u v) as [Hu Hv]; [by left|].
  simpl parse_parts.
  change (parse_part [] (u +:+ "-" +:+ v))
    with (parse_part [] ("" +:+ (u +:+ String "-" v))).
  rewrite parse_part_item by auto.
  rewrite <-list_fmap_compose.
  rewrite (parse_parts_items " " es); [done | by right |].
  intros a b Hab. apply Hclean. by right.
Qed.

(** Property X14.  The unpacking of line 157 fails exactly on a text with a
    comma-separated part that holds two dashes or more (such as [a-b-c]);
    no other text makes the parser raise. *)
Theorem parse_edges_ValueError_iff (edge_str : string) :
  parse_edges edge_str = ValueError ↔ overfull edge_str.
Proof. apply parse_parts_ValueError. Qed.

(** Property X15.  Every label that the parser returns is non-empty, holds no dash and
    no comma, and has no blank at either end. *)
Theorem parse_edges_clean (edge_str : string) (edges : list edge)
    (u v : vertex) :
  parse_edges edge_str = Parsed edges → (u, v) ∈ edges → clean u ∧ clean v.
Proof. intros Hparse Huv. by eapply parse_edges_clean_labels. Qed.

Lemma parse_edges_clean_witness : clean "x1" ∧ clean "é".
Proof.
  apply (parse_edges_clean " a-b ,x1 - é , ,-c" [("a", "b"); ("x1", "é")]).
  - vm_compute. reflexivity.
  - right. by left.
Defined.

(** Property X16.  Printing and parsing are inverse on clean labels: the text that the
    command prints for an edge list parses back to that list. *)
Theorem parse_edges_text_roundtrip (edges : list edge) :
  (∀ u v, (u, v) ∈ edges → clean u ∧ clean v) →
  parse_edges (edges_text edges) = Parsed edges.
Proof. apply parse_edges_text. Qed.

Lemma parse_edges_text_roundtrip_witness :
  parse_edges (edges_text [("a", "b c"); ("v1", "v2")])
  = Parsed [("a", "b c"); ("v1", "v2")].
Proof.
  apply parse_edges_text_roundtrip.
  intros u v [[= -> ->] | [[= -> ->] | H]%elem_of_cons]%elem_of_cons;
    [| | inv H]; repeat split; try done; vm_compute; reflexivity.
Defined.

(** ** The command *)

Lemma parse_parts_no_dash parts : ∀ acc,
  (∀ p, p ∈ parts → count_char "-" p = 0%nat) →
  parse_parts parts acc = Parsed acc.
Proof.
  induction parts as [| p parts IH]; intros acc Hparts; [done|]. simpl.
  destruct (parse_part_cases acc p) as (H0 & _). rewrite H0.
  - apply IH. intros q Hq. apply Hparts. by right.
  - apply Hparts. by left.
Qed.

Lemma build_fixed raw vs es :
  simplicial_complex_from_edges raw = (vs, es) →
  simplicial_complex_from_edges es = (vs, es).
Proof.
  intros Hbuild. rewrite <-Hbuild. apply build_ext. intros p.
  pose proof (canon_pairs_build raw p) as H. by rewrite Hbuild in H.
Qed.

Lemma simplicial_Parsed s raw vs es :
  parse_edges s = Parsed raw → raw ≠ [] →
  simplicial_complex_from_edges raw = (vs, es) →
  ∃ beta0 beta1,
    betti_numbers_1d vs es = Returns (beta0, beta1) ∧
    simplicial s =
      Sends (summary vs es beta0 beta1 (euler_characteristic beta0 beta1)) ∧
    beta1 = Z.of_nat (length es) - Z.of_nat (length vs) + beta0 ∧
    0 ≤ beta1.
Proof.
  intros Hparse Hne Hbuild.
  destruct (betti_build raw) as (n & Hrun & _ & Hle).
  rewrite Hbuild in Hrun, Hle. simpl in Hrun, Hle.
  eexists _, _. split; [exact Hrun|]. split; [|split; [done | lia]].
  unfold simplicial. rewrite Hparse, bool_decide_eq_false_2 by done.
  by rewrite Hbuild, Hrun.
Qed.

(** Property X17.  A call of the command either sends one message or raises
    [ValueError]; it raises exactly on a text with a part that holds two
    dashes or more.  No [KeyError] leaves [betti_numbers_1d] here. *)
Theorem simplicial_outcome (edge_str : string) :
  (overfull edge_str → simplicial edge_str = RaisesValueError) ∧
  (¬ overfull edge_str → ∃ msg, simplicial edge_str = Sends msg).
Proof.
  pose proof (parse_parts_ValueError (split_on "," edge_str) []) as Hiff.
  fold (parse_edges edge_str) in Hiff. fold (overfull edge_str) in Hiff.
  split.
  - intros Hover. unfold simplicial. by rewrite (proj2 Hiff Hover).
  - intros Hok. destruct (parse_edges edge_str) as [raw |] eqn:Hparse.
    2:{ destruct Hok. by apply Hiff. }
    destruct (decide (raw = [])) as [-> | Hne].
    + exists no_edges_msg. unfold simplicial. by rewrite Hparse.
    + destruct (simplicial_complex_from_edges raw) as [vs es] eqn:Hbuild.
      destruct (simplicial_Parsed _ _ _ _ Hparse Hne Hbuild)
        as (b0 & b1 & _ & -> & _). eauto.
Qed.

Lemma simplicial_outcome_witness :
  simplicial "a-b, b-c-d" = RaisesValueError.
Proof.
  apply (proj1 (simplicial_outcome "a-b, b-c-d")).
  exists " b-c-d". split; [|vm_compute; lia].
  change (split_on "," "a-b, b-c-d") with ["a-b"; " b-c-d"]. right. by left.
Defined.

(** Property X18.  A text without any dash gets the fixed message that no edge could be
    parsed. *)
Theorem simplicial_no_dash (edge_str : string) :
  contains "-" edge_str = false → simplicial edge_str = Sends no_edges_msg.
Proof.
  intros Hno. apply contains_count in Hno.
  unfold simplicial, parse_edges.
  rewrite parse_parts_no_dash; [done|].
  intros p Hp. apply split_on_items in Hp as [_ Hle].
  specialize (Hle "-"%char). lia.
Qed.

Lemma simplicial_no_dash_witness :
  simplicial "hello, world" = Sends no_edges_msg.
Proof. apply simplicial_no_dash. vm_compute. reflexivity. Defined.

(** Property X19.  When the text parses to at least one pair, the message is the
    summary of the built complex with the two Betti numbers and
    [chi = |V| - |E|]; the printed [beta1] is not negative. *)
Theorem simplicial_summary (edge_str : string) (raw : list edge)
    (vertices : list vertex) (edges : list edge) :
  parse_edges edge_str = Parsed raw → raw ≠ [] →
  simplicial_complex_from_edges raw = (vertices, edges) →
  ∃ beta0 beta1 : Z,
    betti_numbers_1d vertices edges = Returns (beta0, beta1) ∧
    simplicial edge_str =
      Sends (summary vertices edges beta0 beta1
               (Z.of_nat (length vertices) - Z.of_nat (length edges))) ∧
    0 ≤ beta1.
Proof.
  intros Hparse Hne Hbuild.
  destruct (simplicial_Parsed _ _ _ _ Hparse Hne Hbuild)
    as (b0 & b1 & Hrun & Hmsg & Hb1 & Hpos).
  exists b0, b1. split; [done|]. split; [|done].
  rewrite Hmsg. do 2 f_equal. unfold euler_characteristic. lia.
Qed.

Lemma simplicial_summary_witness :
  ∃ beta0 beta1 : Z,
    betti_numbers_1d ["a"; "b"; "c"] [("a", "b"); ("a", "c"); ("b", "c")]
      = Returns (beta0, beta1) ∧
    simplicial "a-b, b-c, c-a" =
      Sends (summary ["a"; "b"; "c"] [("a", "b"); ("a", "c"); ("b", "c")]
               beta0 beta1 (3 - 3)) ∧
    0 ≤ beta1.
Proof.
  apply (simplicial_summary "a-b, b-c, c-a"
           [("a", "b"); ("b", "c"); ("c", "a")]).
  - vm_compute. reflexivity.
  - done.
  - vm_compute. reflexivity.
Defined.

(** Property X20.  The edge line of a summary is itself a command text that gets the
    same summary: as long as the complex has an edge, sending back what
    the command printed after [Edges:] reproduces its message. *)
Theorem simplicial_edges_line_roundtrip (edge_str : string) (raw : list edge)
    (vertices : list vertex) (edges : list edge) :
  parse_edges edge_str = Parsed raw →
  simplicial_complex_from_edges raw = (vertices, edges) →
  edges ≠ [] →
  simplicial (edges_text edges) = simplicial edge_str.
Proof.
  intros Hparse Hbuild Hne.
  assert (raw ≠ []) as Hraw.
  { intros ->. vm_compute in Hbuild. by injection Hbuild as _ <-. }
  assert (parse_edges (edges_text edges) = Parsed edges) as Hback.
  { apply parse_edges_text. intros a b Hab.
    pose proof (elem_of_build_edges raw (a, b)) as Hmem.
    rewrite Hbuild in Hmem. apply Hmem in Hab.
    apply elem_of_canon_pairs in Hab as (u & v & Huv & _ & Hs).
    destruct (parse_edges_clean_labels _ _ Hparse u v Huv) as [Hu Hv].
    rewrite sorted_pair_eq in Hs.
    by destruct (decide (String.le u v)); injection Hs as <- <-. }
  destruct (simplicial_Parsed _ _ _ _ Hparse Hraw Hbuild)
    as (b0 & b1 & Hrun & -> & _).
  destruct (simplicial_Parsed _ _ _ _ Hback Hne (build_fixed _ _ _ Hbuild))
    as (b0' & b1' & Hrun' & -> & _).
  rewrite Hrun in Hrun'. by injection Hrun' as <- <-.
Qed.

Lemma simplicial_edges_line_roundtrip_witness :
  simplicial (edges_text [("a", "b"); ("a", "c"); ("d", "e")])
  = simplicial " c - a,b-a , x, e-d, a-a".
Proof.
  apply (simplicial_edges_line_roundtrip " c - a,b-a , x, e-d, a-a"
           [("c", "a"); ("b", "a"); ("e", "d"); ("a", "a")]
           ["a"; "b"; "c"; "d"; "e"]).
  - vm_compute. reflexivity.
  - vm_compute. reflexivity.
  - done.
Defined.

(** Property X21.  Two texts that parse to the same set of canonical pairs get the same
    message, whatever the order, the orientation and the repetitions of
    their pairs. *)
Theorem simplicial_same_pairs (text1 text2 : string) (raw1 raw2 : list edge) :
  parse_edges text1 = Parsed raw1 → parse_edges text2 = Parsed raw2 →
  raw1 ≠ [] → raw2 ≠ [] →
  (∀ p, p ∈ canon_pairs raw1 ↔ p ∈ canon_pairs raw2) →
  simplicial text1 = simplicial text2.
Proof.
  intros Hp1 Hp2 Hne1 Hne2 Hsame.
  pose proof (build_ext raw1 raw2 Hsame) as Heq.
  destruct (simplicial_complex_from_edges raw1) as [vs es] eqn:Hb1.
  symmetry in Heq.
  destruct (simplicial_Parsed _ _ _ _ Hp1 Hne1 Hb1)
    as (b0 & b1 & Hrun & -> & _).
  destruct (simplicial_Parsed _ _ _ _ Hp2 Hne2 Heq)
    as (b0' & b1' & Hrun' & -> & _).
  rewrite Hrun in Hrun'. by injection Hrun' as <- <-.
Qed.

Lemma simplicial_same_pairs_witness :
  simplicial "a-b, c-a" = simplicial "a - c,b-a, c-a ,b-b".
Proof.
  apply (simplicial_same_pairs _ _ [("a", "b"); ("c", "a")]
           [("a", "c"); ("b", "a"); ("c", "a"); ("b", "b")]);
    [vm_compute; reflexivity | vm_compute; reflexivity | done | done |].
  intros p.
  change (canon_pairs [("a", "b"); ("c", "a")]) with [("a", "b"); ("a", "c")].
  change (canon_pairs [("a", "c"); ("b", "a"); ("c", "a"); ("b", "b")])
    with [("a", "c"); ("a", "b"); ("a", "c")].
  rewrite !elem_of_cons. tauto.
Defined.

(** Property X22.  A text whose pairs are all self-loops passes the check for an empty
    edge list and gets the summary of the empty complex, not the message
    that nothing could be parsed. *)
Theorem simplicial_only_loops (edge_str : string) (raw : list edge) :
  parse_edges edge_str = Parsed raw → raw ≠ [] →
  (∀ u v, (u, v) ∈ raw → u = v) →
  simplicial edge_str = Sends (summary [] [] 0 0 0).
Proof.
  intros Hparse Hne Hloops.
  assert (simplicial_complex_from_edges raw = ([], [])) as Hbuild.
  { rewrite (build_ext raw []); [vm_compute; reflexivity|].
    intros p. rewrite elem_of_canon_pairs. split; [|intros H; inv H].
    intros (u & v & Huv & Hneq & _). destruct Hneq. by apply Hloops. }
  destruct (simplicial_Parsed _ _ _ _ Hparse Hne Hbuild)
    as (b0 & b1 & Hrun & -> & _).
  vm_compute in Hrun. by injection Hrun as <- <-.
Qed.

Lemma simplicial_only_loops_witness :
  simplicial "a-a, b - b" = Sends (summary [] [] 0 0 0).
Proof.
  apply (simplicial_only_loops "a-a, b - b" [("a", "a"); ("b", "b")]).
  - vm_compute. reflexivity.
  - done.
  - intros u v [[= -> ->] | [[= -> ->] | H]%elem_of_cons]%elem_of_cons;
      [done | done | inv H].
Defined.

(** Property X23.  Listing a vertex a second time leaves [beta0] and lowers [beta1] by
    one: the count of vertices is the length of the list. *)
Theorem betti_repeat_vertex (vertices : list vertex) (edges : list edge)
    (v : vertex) (beta0 beta1 : Z) :
  betti_numbers_1d vertices edges = Returns (beta0, beta1) →
  v ∈ vertices →
  betti_numbers_1d (v :: vertices) edges = Returns (beta0, beta1 - 1).
Proof.
  intros Hrun Hv.
  apply betti_Returns_count in Hrun
    as (Hvalid & n & (reps & Hreps & <-) & -> & ->).
  rewrite (betti_of_count (v :: vertices) edges (length reps)).
  - simpl length. f_equal. f_equal. lia.
  - intros a b Hab. destruct (Hvalid a b Hab). split; by right.
  - exists reps. split; [|done].
    eapply component_reps_ext; [| |exact Hreps]; [|done].
    intros x. rewrite elem_of_cons. split; [auto|]. by intros [-> | ?].
Qed.

Lemma betti_repeat_vertex_witness :
  betti_numbers_1d ["a"; "a"; "b"] [("a", "b")] = Returns (1, 0 - 1).
Proof.
  apply betti_repeat_vertex.
  - vm_compute. reflexivity.
  - by left.
Defined.
